(** * V4L2 M2M format converter: multi-stream coordination

    A shallow embedding of [src/libcamera/converter/converter_v4l2_m2m.cpp]:
    the per-stream engine [V4L2M2MConverter::Stream], the coordinator
    [V4L2M2MConverter], and the reference count kept in [queue_] that
    joins the per-stream completions of one input buffer.

    The V4L2 video devices behind [m2m_->output()] and [m2m_->capture()]
    are collaborators whose code is not part of this file.  They are a
    parameter of the development: a [Device] gives, for every control
    call, its return code and the next device state, and for a
    set-format call the format the hardware negotiated.  Every call made
    on a device is also appended to a log, so that statements about
    which calls happen, and in which order, can be made.

    Conventions.  An [int] return code is a [Z]; a call fails when its
    code is negative.  The [unsigned int] counters of [queue_] are [Z]
    with the wrap-around modulo 2^32 written out.  Stream indices and
    container sizes are [nat].  The handlers of the [bufferReady]
    signals run one at a time, from the event loop; a run is a list of
    events. *)

From stdpp Require Import gmap list sorting.
From Stdlib Require Import ZArith.

Local Open Scope Z_scope.

(** ** Values crossing the interface *)

(** A [FrameBuffer *] is an address; [nullptr] is 0. *)
Abbreviation FrameBuffer := N (only parsing).
Definition nullptr : FrameBuffer := 0%N.

Definition EINVAL : Z := 22.

(** [unsigned int] arithmetic is modulo 2^32. *)
Definition UINT_MOD : Z := 2 ^ 32.
Definition to_uint (z : Z) : Z := z mod UINT_MOD.

Record Size := mkSize { width : Z; height : Z }.

Record StreamConfiguration := mkStreamConfiguration {
  pixelFormat : Z;
  size : Size;
  stride : Z;
  frameSize : Z;
  bufferCount : Z
}.

Record V4L2Plane := mkPlane { plane_size : Z; bpl : Z }.

(** [V4L2DeviceFormat]; of the plane array only [planes[0]] is ever
    touched by the converter. *)
Record V4L2DeviceFormat := mkFormat {
  fourcc : Z;
  fmt_size : Size;
  planes0 : V4L2Plane;
  planesCount : Z
}.

#[global] Instance Size_eq_dec : EqDecision Size.
Proof. solve_decision. Defined.
#[global] Instance V4L2Plane_eq_dec : EqDecision V4L2Plane.
Proof. solve_decision. Defined.
#[global] Instance V4L2DeviceFormat_eq_dec : EqDecision V4L2DeviceFormat.
Proof. solve_decision. Defined.

(** A default-constructed format, also the value of [format = {}]. *)
Definition format_default : V4L2DeviceFormat :=
  mkFormat 0 (mkSize 0 0) (mkPlane 0 0) 0.

(** ** The hardware *)

(** The two queues of a memory-to-memory device.  In V4L2 terms the
    [Output] queue takes the converter's input buffers and the [Capture]
    queue yields the converted output buffers. *)
Inductive Side := Output | Capture.

#[global] Instance Side_eq_dec : EqDecision Side.
Proof. solve_decision. Defined.

(** Calls made on the device of stream [i]. *)
Inductive HwCall :=
| HwOpen (i : nat)
| HwSetFormat (i : nat) (q : Side) (f : V4L2DeviceFormat)
| HwImportBuffers (i : nat) (q : Side) (count : Z)
| HwStreamOn (i : nat) (q : Side)
| HwStreamOff (i : nat) (q : Side)
| HwReleaseBuffers (i : nat) (q : Side)
| HwQueueBuffer (i : nat) (q : Side) (b : FrameBuffer).

#[global] Instance HwCall_eq_dec : EqDecision HwCall.
Proof. solve_decision. Defined.

Definition call_stream (c : HwCall) : nat :=
  match c with
  | HwOpen i | HwSetFormat i _ _ | HwImportBuffers i _ _ | HwStreamOn i _
  | HwStreamOff i _ | HwReleaseBuffers i _ | HwQueueBuffer i _ _ => i
  end.

(** What the converter assumes of its collaborators: nothing beyond
    their being deterministic in the device state. *)
Record Device := mkDevice {
  Dev : Type;
  (** return code and next state of a call *)
  dev_call : HwCall -> Dev -> Z * Dev;
  (** the format written back by [setFormat] *)
  dev_negotiate : nat -> Side -> V4L2DeviceFormat -> Dev -> V4L2DeviceFormat;
  (** [V4L2VideoDevice::toV4L2PixelFormat] *)
  toV4L2PixelFormat : Z -> Z
}.

(** Signals the converter emits to its owner. *)
Inductive Signal :=
| inputBufferReady (b : FrameBuffer)
| outputBufferReady (b : FrameBuffer).

#[global] Instance Signal_eq_dec : EqDecision Signal.
Proof. solve_decision. Defined.

(** ** State *)

(** [V4L2M2MConverter::Stream].  [m2m_] records whether the device
    handle is held; the constructor drops it when [open] fails. *)
Record Stream := mkStream {
  index_ : nat;
  m2m_ : bool;
  inputBufferCount_ : Z;
  outputBufferCount_ : Z
}.

#[global] Instance Stream_eq_dec : EqDecision Stream.
Proof. solve_decision. Defined.

#[global] Instance Stream_inhabited : Inhabited Stream :=
  populate (mkStream 0 false 0 0).

Definition isValid (s : Stream) : bool := m2m_ s.

Section Converter.

Context (D : Device).

(** The devices together with the log of the calls made on them. *)
Record World := mkWorld {
  dev : Dev D;
  calls : list HwCall
}.

Record V4L2M2MConverter := mkConverter {
  streams_ : list Stream;
  queue_ : gmap N Z;
  world : World;
  emitted : list Signal
}.

Definition hw (c : HwCall) (w : World) : Z * World :=
  let '(ret, d) := dev_call D c (dev w) in
  (ret, mkWorld d (calls w ++ [c])).

Definition setFormat (i : nat) (q : Side) (f : V4L2DeviceFormat) (w : World)
  : Z * V4L2DeviceFormat * World :=
  let f' := dev_negotiate D i q f (dev w) in
  let '(ret, w') := hw (HwSetFormat i q f) w in
  (ret, f', w').

(** ** V4L2M2MConverter::Stream *)

Definition Stream_new (i : nat) (w : World) : Stream * World :=
  let '(ret, w1) := hw (HwOpen i) w in
  (mkStream i (negb (ret <? 0)) 0 0, w1).

(** The format handed to the input side: a default-constructed format
    with [fourcc], [size], [planesCount = 1] and [planes[0].bpl] set. *)
Definition input_request (videoFormat : Z) (inputCfg : StreamConfiguration)
  : V4L2DeviceFormat :=
  mkFormat videoFormat (size inputCfg)
           (mkPlane (plane_size (planes0 format_default)) (stride inputCfg)) 1.

(** The format handed to the output side: [format = {}] with [fourcc]
    and [size] set. *)
Definition output_request (videoFormat : Z) (outputCfg : StreamConfiguration)
  : V4L2DeviceFormat :=
  mkFormat videoFormat (size outputCfg)
           (planes0 format_default) (planesCount format_default).

Definition Stream_configure (st : Stream)
    (inputCfg outputCfg : StreamConfiguration) (w : World)
  : Z * Stream * World :=
  let videoFormat := toV4L2PixelFormat D (pixelFormat inputCfg) in
  let format := input_request videoFormat inputCfg in
  let '(ret, format, w1) := setFormat (index_ st) Output format w in
  if ret <? 0 then (ret, st, w1)
  else if negb (bool_decide (fourcc format = videoFormat))
          || negb (bool_decide (fmt_size format = size inputCfg))
          || negb (bool_decide (bpl (planes0 format) = stride inputCfg))
  then (- EINVAL, st, w1)
  else
    let videoFormat := toV4L2PixelFormat D (pixelFormat outputCfg) in
    let format := output_request videoFormat outputCfg in
    let '(ret, format, w2) := setFormat (index_ st) Capture format w1 in
    if ret <? 0 then (ret, st, w2)
    else if negb (bool_decide (fourcc format = videoFormat))
            || negb (bool_decide (fmt_size format = size outputCfg))
    then (- EINVAL, st, w2)
    else
      (0, mkStream (index_ st) (m2m_ st)
                   (bufferCount inputCfg) (bufferCount outputCfg), w2).

Definition Stream_stop (st : Stream) (w : World) : World :=
  let '(_, w) := hw (HwStreamOff (index_ st) Capture) w in
  let '(_, w) := hw (HwStreamOff (index_ st) Output) w in
  let '(_, w) := hw (HwReleaseBuffers (index_ st) Capture) w in
  let '(_, w) := hw (HwReleaseBuffers (index_ st) Output) w in
  w.

Definition Stream_start (st : Stream) (w : World) : Z * World :=
  let '(ret, w) := hw (HwImportBuffers (index_ st) Output (inputBufferCount_ st)) w in
  if ret <? 0 then (ret, w)
  else
    let '(ret, w) := hw (HwImportBuffers (index_ st) Capture (outputBufferCount_ st)) w in
    if ret <? 0 then (ret, Stream_stop st w)
    else
      let '(ret, w) := hw (HwStreamOn (index_ st) Output) w in
      if ret <? 0 then (ret, Stream_stop st w)
      else
        let '(ret, w) := hw (HwStreamOn (index_ st) Capture) w in
        if ret <? 0 then (ret, Stream_stop st w)
        else (0, w).

Definition Stream_queueBuffers (st : Stream) (input output : FrameBuffer)
    (w : World) : Z * World :=
  let '(ret, w) := hw (HwQueueBuffer (index_ st) Output input) w in
  if ret <? 0 then (ret, w)
  else
    let '(ret, w) := hw (HwQueueBuffer (index_ st) Capture output) w in
    if ret <? 0 then (ret, w)
    else (0, w).

(** ** V4L2M2MConverter *)

Definition set_streams (l : list Stream) (c : V4L2M2MConverter) :=
  mkConverter l (queue_ c) (world c) (emitted c).
Definition set_queue (q : gmap N Z) (c : V4L2M2MConverter) :=
  mkConverter (streams_ c) q (world c) (emitted c).
Definition set_world (w : World) (c : V4L2M2MConverter) :=
  mkConverter (streams_ c) (queue_ c) w (emitted c).
Definition emit (s : Signal) (c : V4L2M2MConverter) :=
  mkConverter (streams_ c) (queue_ c) (world c) (emitted c ++ [s]).

(** The loop of [configure]: [i] is the loop counter, [streams] the
    vector built so far.  The result carries [ret] at the exit of the
    loop. *)
Fixpoint configure_loop (inputCfg : StreamConfiguration)
    (outputCfgs : list StreamConfiguration) (i : nat)
    (streams : list Stream) (w : World) : Z * list Stream * World :=
  match outputCfgs with
  | [] => (0, streams, w)
  | outputCfg :: rest =>
      let '(stream, w1) := Stream_new i w in
      if negb (isValid stream) then (- EINVAL, streams ++ [stream], w1)
      else
        let '(ret, stream, w2) := Stream_configure stream inputCfg outputCfg w1 in
        if ret <? 0 then (ret, streams ++ [stream], w2)
        else configure_loop inputCfg rest (S i) (streams ++ [stream]) w2
  end.

(** [configure] starts from an empty vector and empties it again on
    failure.  Destroying a stream drops its device handle; no call is
    logged for that. *)
Definition configure (inputCfg : StreamConfiguration)
    (outputCfgs : list StreamConfiguration) (c : V4L2M2MConverter)
  : Z * V4L2M2MConverter :=
  let '(ret, streams, w) := configure_loop inputCfg outputCfgs 0 [] (world c) in
  if ret <? 0 then (ret, set_streams [] (set_world w c))
  else (0, set_streams streams (set_world w c)).

Definition stop (c : V4L2M2MConverter) : V4L2M2MConverter :=
  set_world (foldl (fun w st => Stream_stop st w) (world c) (reverse (streams_ c))) c.

Fixpoint start_loop (todo : list Stream) (c : V4L2M2MConverter)
  : Z * V4L2M2MConverter :=
  match todo with
  | [] => (0, c)
  | stream :: rest =>
      let '(ret, w) := Stream_start stream (world c) in
      if ret <? 0 then (ret, stop (set_world w c))
      else start_loop rest (set_world w c)
  end.

Definition start (c : V4L2M2MConverter) : Z * V4L2M2MConverter :=
  start_loop (streams_ c) c.

(** A [std::map<unsigned int, FrameBuffer *>] is traversed in key
    order; it is given as the list of its entries in that order. *)
Abbreviation OutputMap := (list (nat * FrameBuffer)) (only parsing).

Definition map_wf (outputs : OutputMap) : Prop :=
  StronglySorted lt (outputs.*1).

(** The validation loop of [queueBuffers]; [None] stands for the early
    [return -EINVAL]. *)
Fixpoint validate_loop (nstreams : nat) (outputs : OutputMap)
    (outputBufs : gset N) : option (gset N) :=
  match outputs with
  | [] => Some outputBufs
  | (index, buffer) :: rest =>
      if bool_decide (buffer = nullptr) then None
      else if bool_decide (nstreams <= index)%nat then None
      else validate_loop nstreams rest ({[buffer]} ∪ outputBufs)
  end.

Definition validate (nstreams : nat) (outputs : OutputMap) : bool :=
  match outputs with
  | [] => false
  | _ =>
      match validate_loop nstreams outputs ∅ with
      | None => false
      | Some outputBufs => bool_decide (base.size outputBufs = nstreams)
      end
  end.

(** The submission loop of [queueBuffers].  [streams_[index]] is read
    without a bounds check; the validation before the loop keeps
    [index] in range. *)
Fixpoint queue_loop (streams : list Stream) (input : FrameBuffer)
    (outputs : OutputMap) (w : World) : Z * World :=
  match outputs with
  | [] => (0, w)
  | (index, buffer) :: rest =>
      let '(ret, w1) := Stream_queueBuffers (streams !!! index) input buffer w in
      if ret <? 0 then (ret, w1)
      else queue_loop streams input rest w1
  end.

(** [std::map::emplace] leaves the map alone when the key is present. *)
Definition emplace (k : N) (v : Z) (m : gmap N Z) : gmap N Z :=
  match m !! k with
  | Some _ => m
  | None => <[k := v]> m
  end.

Definition queueBuffers (input : FrameBuffer) (outputs : OutputMap)
    (c : V4L2M2MConverter) : Z * V4L2M2MConverter :=
  if negb (validate (length (streams_ c)) outputs) then (- EINVAL, c)
  else
    let '(ret, w) := queue_loop (streams_ c) input outputs (world c) in
    if ret <? 0 then (ret, set_world w c)
    else
      (0, set_queue (emplace input (to_uint (Z.of_nat (length outputs))) (queue_ c))
                    (set_world w c)).

(** ** Completion handlers

    Slots connected to the [bufferReady] signals of the two queues of a
    stream.  [Stream_outputBufferReady] runs when the device hands back
    an input buffer, [Stream_captureBufferReady] when an output buffer
    is filled.  Neither uses the stream it runs on. *)

Definition Stream_outputBufferReady (buffer : FrameBuffer)
    (c : V4L2M2MConverter) : V4L2M2MConverter :=
  match queue_ c !! buffer with
  | None => c
  | Some n =>
      let n' := to_uint (n - 1) in
      if n' =? 0
      then set_queue (delete buffer (queue_ c)) (emit (inputBufferReady buffer) c)
      else set_queue (<[buffer := n']> (queue_ c)) c
  end.

Definition Stream_captureBufferReady (buffer : FrameBuffer)
    (c : V4L2M2MConverter) : V4L2M2MConverter :=
  emit (outputBufferReady buffer) c.

(** ** Runs

    Everything reaches the converter on one thread: calls from the
    pipeline handler and buffer completions from the event dispatcher. *)
Inductive Event :=
| EvQueueBuffers (input : FrameBuffer) (outputs : list (nat * FrameBuffer))
| EvOutputBufferReady (i : nat) (buffer : FrameBuffer)
| EvCaptureBufferReady (i : nat) (buffer : FrameBuffer).

Definition dispatch (e : Event) (c : V4L2M2MConverter) : V4L2M2MConverter :=
  match e with
  | EvQueueBuffers input outputs => (queueBuffers input outputs c).2
  | EvOutputBufferReady _ buffer => Stream_outputBufferReady buffer c
  | EvCaptureBufferReady _ buffer => Stream_captureBufferReady buffer c
  end.

Definition run (evs : list Event) (c : V4L2M2MConverter) : V4L2M2MConverter :=
  foldl (fun c e => dispatch e c) c evs.

End Converter.

Arguments mkWorld {D} _ _.
Arguments dev {D} _.
Arguments calls {D} _.
Arguments mkConverter {D} _ _ _ _.
Arguments streams_ {D} _.
Arguments queue_ {D} _.
Arguments world {D} _.
Arguments emitted {D} _.
Arguments hw {D} _ _.
Arguments setFormat {D} _ _ _ _.
Arguments Stream_new {D} _ _.
Arguments Stream_configure {D} _ _ _ _.
Arguments Stream_stop {D} _ _.
Arguments Stream_start {D} _ _.
Arguments Stream_queueBuffers {D} _ _ _ _.
Arguments set_streams {D} _ _.
Arguments set_queue {D} _ _.
Arguments set_world {D} _ _.
Arguments emit {D} _ _.
Arguments configure_loop {D} _ _ _ _ _.
Arguments configure {D} _ _ _.
Arguments stop {D} _.
Arguments start_loop {D} _ _.
Arguments start {D} _.
Arguments queue_loop {D} _ _ _ _.
Arguments queueBuffers {D} _ _ _.
Arguments Stream_outputBufferReady {D} _ _.
Arguments Stream_captureBufferReady {D} _ _.
Arguments dispatch {D} _ _.
Arguments run {D} _ _.

(** ** Words of the specification *)

(** The negotiated input-side format is the requested one. *)
Definition input_matches (videoFormat : Z) (inputCfg : StreamConfiguration)
    (f : V4L2DeviceFormat) : Prop :=
  fourcc f = videoFormat /\ fmt_size f = size inputCfg
  /\ bpl (planes0 f) = stride inputCfg.

(** The negotiated output-side pixel format and size are the requested
    ones; nothing is asked of the stride. *)
Definition output_matches (videoFormat : Z) (outputCfg : StreamConfiguration)
    (f : V4L2DeviceFormat) : Prop :=
  fourcc f = videoFormat /\ fmt_size f = size outputCfg.

(** The calls one [Stream::stop] makes on stream [i]. *)
Definition stop_calls (i : nat) : list HwCall :=
  [HwStreamOff i Capture; HwStreamOff i Output;
   HwReleaseBuffers i Capture; HwReleaseBuffers i Output].

(** The calls one successful [Stream::queueBuffers] makes on stream [i]. *)
Definition queue_calls (input : FrameBuffer) (e : nat * FrameBuffer)
  : list HwCall :=
  [HwQueueBuffer e.1 Output input; HwQueueBuffer e.1 Capture e.2].

(** Streams sit in [streams_] at the position their index names. *)
Definition indexed (streams : list Stream) : Prop :=
  forall i st, streams !! i = Some st -> index_ st = i.

(** How often [inputBufferReady b] occurs among emitted signals. *)
Definition consumed (b : FrameBuffer) (l : list Signal) : nat :=
  length (filter (fun s => s = inputBufferReady b) l).

(** How often the input side of some stream reports [b] done. *)
Definition is_done (b : FrameBuffer) (e : Event) : Prop :=
  match e with
  | EvOutputBufferReady _ b' => b' = b
  | _ => False
  end.

#[global] Instance is_done_dec b e : Decision (is_done b e).
Proof. destruct e; simpl; apply _. Defined.

Definition done_count (b : FrameBuffer) (evs : list Event) : nat :=
  length (filter (is_done b) evs).

(** The pipeline queues [b] as an input in this event. *)
Definition requeues (b : FrameBuffer) (e : Event) : Prop :=
  match e with
  | EvQueueBuffers input _ => input = b
  | _ => False
  end.

#[global] Instance requeues_dec b e : Decision (requeues b e).
Proof. destruct e; simpl; apply _. Defined.

(** What [configure] does for stream [i] alone: construct it, and
    configure it unless its device could not be opened. *)
Definition create_stream {D : Device} (i : nat)
    (inputCfg outputCfg : StreamConfiguration) (w : World D)
  : Z * Stream * World D :=
  let '(stream, w1) := Stream_new i w in
  if negb (isValid stream) then (- EINVAL, stream, w1)
  else Stream_configure stream inputCfg outputCfg w1.

(** The output configurations [outputCfgs] are served one after the
    other, from stream [i] on and from world [w]: each stream is
    created and configured with a code that is not negative.  [streams]
    are the streams so created and [w'] the world they leave. *)
Inductive created {D : Device} (inputCfg : StreamConfiguration)
  : nat -> list StreamConfiguration -> World D -> list Stream -> World D -> Prop :=
| created_nil i w : created inputCfg i [] w [] w
| created_cons i outputCfg rest w r stream w1 streams w2 :
    create_stream i inputCfg outputCfg w = (r, stream, w1) ->
    0 <= r ->
    created inputCfg (S i) rest w1 streams w2 ->
    created inputCfg i (outputCfg :: rest) w (stream :: streams) w2.

(** The entries [outputs] are submitted one after the other from world
    [w], each [Stream::queueBuffers] answering with a code that is not
    negative; [w'] is the world they leave. *)
Inductive submitted {D : Device} (streams : list Stream) (input : FrameBuffer)
  : list (nat * FrameBuffer) -> World D -> World D -> Prop :=
| submitted_nil w : submitted streams input [] w w
| submitted_cons e rest w r w1 w2 :
    Stream_queueBuffers (streams !!! e.1) input e.2 w = (r, w1) ->
    0 <= r ->
    submitted streams input rest w1 w2 ->
    submitted streams input (e :: rest) w w2.

(** The log of [w'] is the log of [w] followed by calls on streams
    that satisfy [on]: calls are only ever appended. *)
Definition extends {D : Device} (on : nat -> Prop) (w w' : World D) : Prop :=
  exists l, calls w' = calls w ++ l /\ Forall (fun c => on (call_stream c)) l.

(** What the loop has built when it runs to its end. *)
Definition built (inputCfg : StreamConfiguration)
    (outputCfgs : list StreamConfiguration) (i : nat) (new : list Stream) : Prop :=
  length new = length outputCfgs
  /\ forall k st, new !! k = Some st ->
       index_ st = (i + k)%nat /\ isValid st = true
       /\ inputBufferCount_ st = bufferCount inputCfg
       /\ exists cfg, outputCfgs !! k = Some cfg
                      /\ outputBufferCount_ st = bufferCount cfg.

(** An entry of the output map names a configured stream and a buffer. *)
Definition entry_ok (nstreams : nat) (e : nat * FrameBuffer) : Prop :=
  e.2 <> nullptr /\ (e.1 < nstreams)%nat.

(** The distinct output buffers of a request. *)
Definition distinct_buffers (outputs : list (nat * FrameBuffer)) : gset N :=
  list_to_set (outputs.*2).

(** The pending table after a successful [queueBuffers], as worded: an
    entry for [input] counting the outputs of the request. *)
Definition registered_as_worded {D : Device} (input : FrameBuffer)
    (outputs : list (nat * FrameBuffer)) (c : V4L2M2MConverter D) : Prop :=
  validate (length (streams_ c)) outputs = true ->
  (queueBuffers input outputs c).1 = 0 ->
  queue_ (queueBuffers input outputs c).2 !! input
  = Some (Z.of_nat (length outputs)).

(** Every live entry of the pending table counts at least one
    completion still to come, and fits an [unsigned int]. *)
Definition queue_wf {D : Device} (c : V4L2M2MConverter D) : Prop :=
  forall b n, queue_ c !! b = Some n -> 0 < n < UINT_MOD.

(** The output map of a queueing event is a map. *)
Definition event_wf (e : Event) : Prop :=
  match e with
  | EvQueueBuffers _ outputs => map_wf outputs
  | _ => True
  end.

(** The input-consumed signal as worded: once it has been emitted for
    the input of an accepted request, an output-ready signal has been
    emitted for every output buffer of that request. *)
Definition consumed_after_outputs {D : Device} (input : FrameBuffer)
    (outputs : list (nat * FrameBuffer)) (c : V4L2M2MConverter D)
    (evs : list Event) : Prop :=
  (queueBuffers input outputs c).1 = 0 ->
  inputBufferReady input ∈ emitted (run evs (queueBuffers input outputs c).2) ->
  forall e, e ∈ outputs ->
    outputBufferReady e.2 ∈ emitted (run evs (queueBuffers input outputs c).2).

(** ** Devices used in examples *)

(** A device whose calls return what [rets] says and which negotiates
    what [neg] says; it keeps no state. *)
Definition scripted (rets : HwCall -> Z)
    (neg : nat -> Side -> V4L2DeviceFormat -> V4L2DeviceFormat) : Device :=
  mkDevice unit (fun c d => (rets c, d)) (fun i q f _ => neg i q f) (fun p => p).

(** Every call succeeds and every format is taken as requested, with a
    stride of four bytes per pixel filled in on the output side. *)
Definition ideal : Device :=
  scripted (fun _ => 0)
    (fun _ q f =>
       match q with
       | Output => f
       | Capture => mkFormat (fourcc f) (fmt_size f)
                             (mkPlane 0 (4 * width (fmt_size f))) 1
       end).

(** The input side rounds the stride up to a multiple of 64. *)
Definition aligning : Device :=
  scripted (fun _ => 0)
    (fun _ q f =>
       match q with
       | Output => mkFormat (fourcc f) (fmt_size f)
                            (mkPlane 0 ((bpl (planes0 f) + 63) / 64 * 64)) 1
       | Capture => f
       end).

Definition ENOMEM : Z := 12.
Definition EIO : Z := 5.

(** Buffers cannot be imported on the input side. *)
Definition no_input_memory : Device :=
  scripted (fun c => match c with
                     | HwImportBuffers _ Output _ => - ENOMEM
                     | _ => 0
                     end)
           (fun _ _ f => f).

(** Stream 1 cannot be opened. *)
Definition second_unavailable : Device :=
  scripted (fun c => match c with HwOpen 1 => - EIO | _ => 0 end)
           (fun _ _ f => f).

(** The output side of stream 1 refuses buffers. *)
Definition second_refuses : Device :=
  scripted (fun c => match c with
                     | HwQueueBuffer 1 Capture _ => - EIO
                     | _ => 0
                     end)
           (fun _ _ f => f).

Definition world0 (D : Device) (d : Dev D) : World D := mkWorld d [].

Definition converter0 (D : Device) (d : Dev D) : V4L2M2MConverter D :=
  mkConverter [] ∅ (world0 D d) [].

Definition cfg_in : StreamConfiguration :=
  mkStreamConfiguration 1 (mkSize 640 480) 2560 1228800 4.
Definition cfg_in_odd : StreamConfiguration :=
  mkStreamConfiguration 1 (mkSize 630 480) 2520 1209600 4.
Definition cfg_out0 : StreamConfiguration :=
  mkStreamConfiguration 2 (mkSize 320 240) 0 0 4.
Definition cfg_out1 : StreamConfiguration :=
  mkStreamConfiguration 3 (mkSize 160 120) 0 0 2.

(** Two configured streams, as [configure] leaves them. *)
Definition two_streams : list Stream :=
  [mkStream 0 true 4 4; mkStream 1 true 4 2].

Definition converter2 (D : Device) (d : Dev D) : V4L2M2MConverter D :=
  mkConverter two_streams ∅ (world0 D d) [].

(** Buffer 100 goes in, buffers 200 and 300 come out of streams 0 and 1. *)
Definition outs2 : list (nat * FrameBuffer) := [(0%nat, 200%N); (1%nat, 300%N)].

(** Buffer 100 was queued to both streams and one stream has handed
    it back: its entry is live and counts 1. *)
Definition half_done (D : Device) (d : Dev D) : V4L2M2MConverter D :=
  run [EvQueueBuffers 100%N outs2; EvOutputBufferReady 0 100%N] (converter2 D d).

(** ** A device after the specification *)

(** Modelled from the spec: the hardware conversion device behind a
    stream ([V4L2M2MDevice] with its two [V4L2VideoDevice] queues), of
    which the converter holds only calls.  The specification gives it
    start and stop of a queue, import and release of buffer
    registrations, and queueing of a buffer.  Of each queue the model
    keeps whether it is active, how many buffer registrations it holds
    and which buffers were handed to it. *)
Record QueueState := mkQueueState {
  active : bool;
  registered : Z;
  handed : list FrameBuffer
}.

Definition queue_idle : QueueState := mkQueueState false 0 [].

Definition on_queue (i : nat) (q : Side) (f : QueueState -> QueueState)
    (d : nat -> Side -> QueueState) : nat -> Side -> QueueState :=
  fun j p => if decide (j = i /\ p = q) then f (d j p) else d j p.

(** Modelled from the spec: what each call does to the queues.  Stopping
    a queue deactivates it, releasing drops every registration. *)
Definition m2m_call (c : HwCall) (d : nat -> Side -> QueueState)
  : Z * (nat -> Side -> QueueState) :=
  match c with
  | HwOpen _ => (0, d)
  | HwSetFormat _ _ _ => (0, d)
  | HwImportBuffers i q n =>
      (0, on_queue i q (fun s => mkQueueState (active s) n (handed s)) d)
  | HwStreamOn i q =>
      (0, on_queue i q (fun s => mkQueueState true (registered s) (handed s)) d)
  | HwStreamOff i q =>
      (0, on_queue i q (fun s => mkQueueState false (registered s) (handed s)) d)
  | HwReleaseBuffers i q =>
      (0, on_queue i q (fun s => mkQueueState (active s) 0 (handed s)) d)
  | HwQueueBuffer i q b =>
      (0, on_queue i q
            (fun s => mkQueueState (active s) (registered s) (handed s ++ [b])) d)
  end.

Definition m2m_device : Device :=
  mkDevice (nat -> Side -> QueueState) m2m_call (fun _ _ f _ => f) (fun p => p).

(** The queues of stream [i] are inactive and hold no registration: the
    stream was never started, or was stopped. *)
Definition stopped (i : nat) (d : nat -> Side -> QueueState) : Prop :=
  forall q, active (d i q) = false /\ registered (d i q) = 0.





(** ** Further words for the lifecycle and the runs *)

(** The calls one successful [Stream::start] makes. *)
Definition start_calls (st : Stream) : list HwCall :=
  [HwImportBuffers (index_ st) Output (inputBufferCount_ st);
   HwImportBuffers (index_ st) Capture (outputBufferCount_ st);
   HwStreamOn (index_ st) Output;
   HwStreamOn (index_ st) Capture].

(** The calls [configure] makes for stream [i] when all goes well. *)
Definition setup_calls (D : Device) (inputCfg : StreamConfiguration)
    (i : nat) (outputCfg : StreamConfiguration) : list HwCall :=
  [HwOpen i;
   HwSetFormat i Output
     (input_request (toV4L2PixelFormat D (pixelFormat inputCfg)) inputCfg);
   HwSetFormat i Capture
     (output_request (toV4L2PixelFormat D (pixelFormat outputCfg)) outputCfg)].

(** The calls of a [configure] that succeeds, streams numbered from [i]. *)
Fixpoint setup_log (D : Device) (inputCfg : StreamConfiguration) (i : nat)
    (outputCfgs : list StreamConfiguration) : list HwCall :=
  match outputCfgs with
  | [] => []
  | outputCfg :: rest =>
      setup_calls D inputCfg i outputCfg ++ setup_log D inputCfg (S i) rest
  end.

(** The streams of a [configure] that succeeds, numbered from [i]. *)
Fixpoint configured_streams (inputCfg : StreamConfiguration) (i : nat)
    (outputCfgs : list StreamConfiguration) : list Stream :=
  match outputCfgs with
  | [] => []
  | outputCfg :: rest =>
      mkStream i true (bufferCount inputCfg) (bufferCount outputCfg)
      :: configured_streams inputCfg (S i) rest
  end.

(** The calls of a [start] that succeeds on streams configured from
    [inputCfg] and [outputCfgs], numbered from [i]. *)
Fixpoint start_log (inputCfg : StreamConfiguration) (i : nat)
    (outputCfgs : list StreamConfiguration) : list HwCall :=
  match outputCfgs with
  | [] => []
  | outputCfg :: rest =>
      [HwImportBuffers i Output (bufferCount inputCfg);
       HwImportBuffers i Capture (bufferCount outputCfg);
       HwStreamOn i Output;
       HwStreamOn i Capture] ++ start_log inputCfg (S i) rest
  end.

(** Whether a buffer has an entry in the pending table, as a number. *)
Definition live {D : Device} (b : FrameBuffer) (c : V4L2M2MConverter D) : nat :=
  match queue_ c !! b with
  | Some _ => 1
  | None => 0
  end.

(** How often a run queues [b] as an input. *)
Definition request_count (b : FrameBuffer) (evs : list Event) : nat :=
  length (filter (requeues b) evs).

(** The output buffers among emitted signals, in order. *)
Definition forwarded (l : list Signal) : list FrameBuffer :=
  omap (fun s => match s with
                 | outputBufferReady b => Some b
                 | inputBufferReady _ => None
                 end) l.

(** The output buffers the devices report ready during a run, in order. *)
Definition captured (evs : list Event) : list FrameBuffer :=
  omap (fun e => match e with
                 | EvCaptureBufferReady _ b => Some b
                 | _ => None
                 end) evs.

(** No live entry counts more completions than there are streams. *)
Definition queue_bounded {D : Device} (c : V4L2M2MConverter D) : Prop :=
  forall b n, queue_ c !! b = Some n ->
    0 < n <= Z.of_nat (length (streams_ c)).

From stdpp Require strings pretty.

Module LogPrefix.

Import Stdlib.Strings.String.

(** [Stream::logPrefix]: the text "stream" followed by the index in
    decimal, as [std::to_string] writes it. *)
Definition Stream_logPrefix (st : Stream) : String.string :=
  String.append "stream"%string (pretty.pretty (index_ st)).

(** The prefix of the fourth stream, written out. *)
Definition stream3 : String.string := "stream3"%string.

End LogPrefix.

(** * Properties *)

(** ** Stream::configure *)

Section StreamConfigure.

Context {D : Device}.

(** C5.  Name [r1], [f1] the return code and negotiated format of the
    input-side [setFormat], and [r2], [f2] those of the output-side one.
    A failed [setFormat] is returned as it is.  When the input-side call
    succeeds but its negotiated pixel format, size or stride is not the
    requested one, [configure] returns [-EINVAL] (the format mismatch)
    and stores nothing.  When the input side matches and the output-side
    call succeeds, [configure] returns [-EINVAL] if the negotiated
    output pixel format or size differs, and otherwise returns 0 with
    both buffer counts of the request stored, whatever stride and plane
    layout the output side reports. *)
Theorem Stream_configure_negotiation
    (st st' : Stream) (inputCfg outputCfg : StreamConfiguration)
    (w w1 w2 w' : World D) (r1 r2 ret : Z) (f1 f2 : V4L2DeviceFormat) :
  let vin := toV4L2PixelFormat D (pixelFormat inputCfg) in
  let vout := toV4L2PixelFormat D (pixelFormat outputCfg) in
  setFormat (index_ st) Output (input_request vin inputCfg) w = (r1, f1, w1) ->
  setFormat (index_ st) Capture (output_request vout outputCfg) w1 = (r2, f2, w2) ->
  Stream_configure st inputCfg outputCfg w = (ret, st', w') ->
  (r1 < 0 -> ret = r1 /\ st' = st /\ w' = w1) /\
  (0 <= r1 -> ~ input_matches vin inputCfg f1 ->
     ret = - EINVAL /\ st' = st /\ w' = w1) /\
  (0 <= r1 -> input_matches vin inputCfg f1 ->
     (r2 < 0 -> ret = r2 /\ st' = st /\ w' = w2) /\
     (0 <= r2 -> ~ output_matches vout outputCfg f2 ->
        ret = - EINVAL /\ st' = st /\ w' = w2) /\
     (0 <= r2 -> output_matches vout outputCfg f2 ->
        ret = 0 /\ w' = w2 /\
        st' = mkStream (index_ st) (m2m_ st)
                       (bufferCount inputCfg) (bufferCount outputCfg))).
Proof.
  intros vin vout E1 E2 E.
  unfold Stream_configure in E. fold vin vout in E. rewrite E1 in E.
  unfold input_matches, output_matches.
  split; [|split].
  - intros Hr1. assert ((r1 <? 0) = true) as Hlt1 by lia. rewrite Hlt1 in E.
    inversion E; subst; auto.
  - intros Hr1 Hmis.
    assert ((r1 <? 0) = false) as Hlt1 by lia. rewrite Hlt1 in E.
    destruct (bool_decide_reflect (fourcc f1 = vin)),
             (bool_decide_reflect (fmt_size f1 = size inputCfg)),
             (bool_decide_reflect (bpl (planes0 f1) = stride inputCfg));
      simpl in E; try (inversion E; subst; auto; fail).
    exfalso; auto.
  - intros Hr1 (Ha & Hb & Hc).
    assert ((r1 <? 0) = false) as Hlt1 by lia. rewrite Hlt1 in E.
    rewrite !bool_decide_eq_true_2 in E by assumption. simpl in E.
    rewrite E2 in E.
    split; [|split].
    + intros Hr2. assert ((r2 <? 0) = true) as Hlt2 by lia. rewrite Hlt2 in E.
      inversion E; subst; auto.
    + intros Hr2 Hmis.
      assert ((r2 <? 0) = false) as Hlt2 by lia. rewrite Hlt2 in E.
      destruct (bool_decide_reflect (fourcc f2 = vout)),
               (bool_decide_reflect (fmt_size f2 = size outputCfg));
        simpl in E; try (inversion E; subst; auto; fail).
      exfalso; auto.
    + intros Hr2 (Hd & He).
      assert ((r2 <? 0) = false) as Hlt2 by lia. rewrite Hlt2 in E.
      rewrite !bool_decide_eq_true_2 in E by assumption. simpl in E.
      inversion E; subst; auto.
Qed.

End StreamConfigure.

(** The input side aligns a stride of 2520 to 2560: the request is
    refused and no buffer count is stored. *)
Lemma Stream_configure_negotiation_witness :
  Stream_configure (mkStream 0 true 0 0) cfg_in_odd cfg_out0 (world0 aligning tt)
  = (- EINVAL, mkStream 0 true 0 0,
     mkWorld (D := aligning) tt [HwSetFormat 0 Output (input_request 1 cfg_in_odd)]).
Proof.
  pose (w1 := mkWorld (D := aligning) tt
                [HwSetFormat 0 Output (input_request 1 cfg_in_odd)]).
  pose (w2 := mkWorld (D := aligning) tt
                [HwSetFormat 0 Output (input_request 1 cfg_in_odd);
                 HwSetFormat 0 Capture (output_request 2 cfg_out0)]).
  pose (f1 := mkFormat 1 (mkSize 630 480) (mkPlane 0 2560) 1).
  destruct (Stream_configure_negotiation (D := aligning)
              (mkStream 0 true 0 0) (mkStream 0 true 0 0) cfg_in_odd cfg_out0
              (world0 aligning tt) w1 w2 w1 0 0 (- EINVAL) f1
              (output_request 2 cfg_out0) eq_refl eq_refl eq_refl)
    as (_ & H & _).
  destruct H as (H1 & H2 & H3).
  - lia.
  - intros (_ & _ & Hc). vm_compute in Hc. discriminate Hc.
  - reflexivity.
Defined.

(** ** Stream::stop and Stream::start *)

Section StreamStartStop.

Context {D : Device}.

Lemma hw_calls c (w : World D) : calls (hw c w).2 = calls w ++ [c].
Proof. unfold hw. destruct (dev_call D c (dev w)); reflexivity. Qed.

Lemma hw_calls_eq c (w w' : World D) r :
  hw c w = (r, w') -> calls w' = calls w ++ [c].
Proof. intros E. pose proof (hw_calls c w) as H. rewrite E in H. exact H. Qed.

Lemma Stream_stop_calls st (w : World D) :
  calls (Stream_stop st w) = calls w ++ stop_calls (index_ st).
Proof.
  unfold Stream_stop, stop_calls.
  destruct (hw (HwStreamOff (index_ st) Capture) w) as [r1 w1] eqn:E1.
  destruct (hw (HwStreamOff (index_ st) Output) w1) as [r2 w2] eqn:E2.
  destruct (hw (HwReleaseBuffers (index_ st) Capture) w2) as [r3 w3] eqn:E3.
  destruct (hw (HwReleaseBuffers (index_ st) Output) w3) as [r4 w4] eqn:E4.
  rewrite (hw_calls_eq _ _ _ _ E4), (hw_calls_eq _ _ _ _ E3),
    (hw_calls_eq _ _ _ _ E2), (hw_calls_eq _ _ _ _ E1).
  rewrite <- !app_assoc. reflexivity.
Qed.

(** X16.  On any device, the four sub-steps of [start] are attempted in the
    order: import on the input side, import on the output side, stream
    on the input side, stream on the output side, each only when the
    ones before it succeeded.  When the first import fails its code
    is returned at once and nothing else is called: no stop is issued.
    When one of the three later sub-steps fails, the four calls of
    [stop] follow it and its code is returned.  When all succeed 0 is
    returned. *)
Theorem Stream_start_steps (st : Stream) (w w1 w2 w3 w4 : World D)
    (r1 r2 r3 r4 : Z) :
  let i := index_ st in
  let c1 := HwImportBuffers i Output (inputBufferCount_ st) in
  let c2 := HwImportBuffers i Capture (outputBufferCount_ st) in
  let c3 := HwStreamOn i Output in
  let c4 := HwStreamOn i Capture in
  hw c1 w = (r1, w1) -> hw c2 w1 = (r2, w2) ->
  hw c3 w2 = (r3, w3) -> hw c4 w3 = (r4, w4) ->
  let ret := (Stream_start st w).1 in
  let log := calls (Stream_start st w).2 in
  (r1 < 0 -> ret = r1 /\ log = calls w ++ [c1]) /\
  (0 <= r1 -> r2 < 0 ->
     ret = r2 /\ log = calls w ++ [c1; c2] ++ stop_calls i) /\
  (0 <= r1 -> 0 <= r2 -> r3 < 0 ->
     ret = r3 /\ log = calls w ++ [c1; c2; c3] ++ stop_calls i) /\
  (0 <= r1 -> 0 <= r2 -> 0 <= r3 -> r4 < 0 ->
     ret = r4 /\ log = calls w ++ [c1; c2; c3; c4] ++ stop_calls i) /\
  (0 <= r1 -> 0 <= r2 -> 0 <= r3 -> 0 <= r4 ->
     Stream_start st w = (0, w4) /\ log = calls w ++ [c1; c2; c3; c4]).
Proof.
  intros i c1 c2 c3 c4 E1 E2 E3 E4 ret log.
  pose proof (hw_calls_eq _ _ _ _ E1) as L1.
  pose proof (hw_calls_eq _ _ _ _ E2) as L2.
  pose proof (hw_calls_eq _ _ _ _ E3) as L3.
  pose proof (hw_calls_eq _ _ _ _ E4) as L4.
  subst ret log. unfold Stream_start. fold i c1 c2 c3 c4. rewrite E1.
  destruct (Z.ltb_spec r1 0) as [H1|H1]; simpl.
  { repeat split; intros; try lia. exact L1. }
  rewrite E2.
  destruct (Z.ltb_spec r2 0) as [H2|H2]; simpl.
  { repeat split; intros; try lia.
    rewrite Stream_stop_calls, L2, L1, <- !app_assoc. reflexivity. }
  rewrite E3.
  destruct (Z.ltb_spec r3 0) as [H3|H3]; simpl.
  { repeat split; intros; try lia.
    rewrite Stream_stop_calls, L3, L2, L1, <- !app_assoc. reflexivity. }
  rewrite E4.
  destruct (Z.ltb_spec r4 0) as [H4|H4]; simpl.
  { repeat split; intros; try lia.
    rewrite Stream_stop_calls, L4, L3, L2, L1, <- !app_assoc. reflexivity. }
  repeat split; intros; try lia.
  rewrite L4, L3, L2, L1, <- !app_assoc. reflexivity.
Qed.

End StreamStartStop.

(** With no memory for the input side, [start] fails on its first
    sub-step and returns without a single call of [stop]. *)
Lemma Stream_start_steps_witness :
  (Stream_start (mkStream 0 true 4 4) (world0 no_input_memory tt)).1 = - ENOMEM
  /\ calls (Stream_start (mkStream 0 true 4 4) (world0 no_input_memory tt)).2
     = [HwImportBuffers 0 Output 4].
Proof.
  pose (w1 := mkWorld (D := no_input_memory) tt [HwImportBuffers 0 Output 4]).
  pose (w2 := mkWorld (D := no_input_memory) tt
                [HwImportBuffers 0 Output 4; HwImportBuffers 0 Capture 4]).
  pose (w3 := mkWorld (D := no_input_memory) tt
                [HwImportBuffers 0 Output 4; HwImportBuffers 0 Capture 4;
                 HwStreamOn 0 Output]).
  pose (w4 := mkWorld (D := no_input_memory) tt
                [HwImportBuffers 0 Output 4; HwImportBuffers 0 Capture 4;
                 HwStreamOn 0 Output; HwStreamOn 0 Capture]).
  destruct (Stream_start_steps (D := no_input_memory) (mkStream 0 true 4 4)
              (world0 no_input_memory tt) w1 w2 w3 w4 (- ENOMEM) 0 0 0
              eq_refl eq_refl eq_refl eq_refl) as (H & _).
  apply H. unfold ENOMEM. lia.
Defined.

(** ** V4L2M2MConverter::stop *)

Section Stop.

Context {D : Device}.

Lemma stop_fold_calls (l : list Stream) (w : World D) :
  calls (foldl (fun w st => Stream_stop st w) w l)
  = calls w ++ flat_map stop_calls (index_ <$> l).
Proof.
  revert w. induction l as [|st l IH]; intros w; simpl.
  - rewrite app_nil_r. reflexivity.
  - rewrite IH, Stream_stop_calls, <- app_assoc. reflexivity.
Qed.

Lemma indexed_seq (l : list Stream) :
  indexed l -> index_ <$> l = seq 0 (length l).
Proof.
  intros H. apply list_eq. intros i.
  rewrite list_lookup_fmap.
  destruct (l !! i) as [st|] eqn:E; simpl.
  - rewrite (H i st E). symmetry. apply lookup_seq_lt.
    eapply lookup_lt_Some; eauto.
  - symmetry. apply lookup_seq_ge. apply lookup_ge_None. exact E.
Qed.

(** C8.  [stop] stops every stream of [streams_], the last one first
    and the first one last: with K streams sitting at their indices,
    the calls made are the four calls of [Stream::stop] on stream K-1,
    then those on stream K-2, down to stream 0.  This holds for every
    device, whatever its calls return, and nothing else of the
    converter changes. *)
Theorem stop_reverse_order (c : V4L2M2MConverter D) :
  indexed (streams_ c) ->
  calls (world (stop c))
  = calls (world c)
    ++ flat_map stop_calls (reverse (seq 0 (length (streams_ c))))
  /\ streams_ (stop c) = streams_ c
  /\ queue_ (stop c) = queue_ c
  /\ emitted (stop c) = emitted c.
Proof.
  intros Hidx. unfold stop. simpl. repeat split.
  rewrite stop_fold_calls, fmap_reverse, (indexed_seq _ Hidx). reflexivity.
Qed.

End Stop.

Lemma stop_reverse_order_witness :
  calls (world (stop (mkConverter (D := second_refuses)
                        (two_streams ++ [mkStream 2 true 4 4]) ∅
                        (world0 second_refuses tt) [])))
  = stop_calls 2 ++ stop_calls 1 ++ stop_calls 0.
Proof.
  apply (stop_reverse_order
           (mkConverter (D := second_refuses)
              (two_streams ++ [mkStream 2 true 4 4]) ∅
              (world0 second_refuses tt) [])).
  intros i st. destruct i as [|[|[|i]]]; simpl; intros E; inversion E; reflexivity.
Defined.

(** ** Stream::stop, twice *)

Lemma on_queue_same i q f d : on_queue i q f d i q = f (d i q).
Proof. unfold on_queue. rewrite decide_True; auto. Qed.

Lemma on_queue_other i q f d j p :
  ~ (j = i /\ p = q) -> on_queue i q f d j p = d j p.
Proof. intros H. unfold on_queue. rewrite decide_False; auto. Qed.

Lemma Stream_stop_m2m (st : Stream) (w : World m2m_device) j p :
  dev (Stream_stop st w) j p
  = if decide (j = index_ st)
    then mkQueueState false 0 (handed (dev w j p))
    else dev w j p.
Proof.
  unfold Stream_stop, hw. simpl. unfold on_queue.
  destruct (decide (j = index_ st)) as [->|Hne].
  - destruct p; repeat (destruct (decide _) as [[? ?]|?]; simpl);
      try congruence; try reflexivity; exfalso; auto.
  - repeat (destruct (decide _) as [[? ?]|?]; simpl); congruence.
Qed.

(** C9.  On the device modelled after the specification, a second
    [Stream::stop] leaves every queue as the first one left it, and a
    [Stream::stop] on a stream whose queues are inactive and hold no
    registration (never started, or already stopped) leaves every queue
    as it was.  [Stream::stop] has no access to the fields of the
    stream, so these are all the effects there are. *)
Theorem Stream_stop_idempotent (st : Stream) (w : World m2m_device) :
  (forall j p, dev (Stream_stop st (Stream_stop st w)) j p
               = dev (Stream_stop st w) j p)
  /\ (stopped (index_ st) (dev w) ->
      forall j p, dev (Stream_stop st w) j p = dev w j p).
Proof.
  split.
  - intros j p. rewrite !Stream_stop_m2m.
    destruct (decide (j = index_ st)); reflexivity.
  - intros Hs j p. rewrite Stream_stop_m2m.
    destruct (decide (j = index_ st)) as [->|]; [|reflexivity].
    destruct (Hs p) as [Ha Hr]. destruct (dev w (index_ st) p); simpl in *.
    congruence.
Qed.

(** Stopping a stream that was never started changes no queue. *)
Lemma Stream_stop_idempotent_witness :
  dev (Stream_stop (mkStream 0 true 4 4)
         (world0 m2m_device (fun _ _ => queue_idle))) 0%nat Capture
  = queue_idle.
Proof.
  apply (proj2 (Stream_stop_idempotent (mkStream 0 true 4 4)
                  (world0 m2m_device (fun _ _ => queue_idle)))).
  intros q. split; reflexivity.
Defined.

(** ** Stream::start, all or nothing *)

Section StreamStartUnwound.

Context (rets : HwCall -> (nat -> Side -> QueueState) -> Z).








End StreamStartUnwound.


(** ** V4L2M2MConverter::configure *)

Section Configure.

Context {D : Device}.

Lemma extends_refl on (w : World D) : extends on w w.
Proof. exists []. rewrite app_nil_r. auto. Qed.

Lemma extends_trans on (w1 w2 w3 : World D) :
  extends on w1 w2 -> extends on w2 w3 -> extends on w1 w3.
Proof.
  intros (l1 & E1 & F1) (l2 & E2 & F2). exists (l1 ++ l2).
  rewrite E2, E1, <- app_assoc. split; [reflexivity|].
  apply Forall_app; auto.
Qed.

Lemma extends_weaken (on on' : nat -> Prop) (w w' : World D) :
  (forall i, on i -> on' i) -> extends on w w' -> extends on' w w'.
Proof.
  intros H (l & E & F). exists l. split; [exact E|].
  eapply Forall_impl; eauto.
Qed.

Lemma hw_extends c (w w' : World D) r :
  hw c w = (r, w') -> extends (fun i => i = call_stream c) w w'.
Proof.
  intros E. exists [c]. split; [eapply hw_calls_eq; eauto|].
  repeat constructor.
Qed.

Lemma setFormat_extends i q f (w w' : World D) r f' :
  setFormat i q f w = (r, f', w') -> extends (fun j => j = i) w w'.
Proof.
  unfold setFormat. destruct (hw (HwSetFormat i q f) w) as [r0 w0] eqn:E.
  intros H. inversion H; subst. apply (hw_extends _ _ _ _ E).
Qed.

Lemma Stream_new_spec i (w w' : World D) st :
  Stream_new i w = (st, w') ->
  index_ st = i /\ extends (fun j => j = i) w w'.
Proof.
  unfold Stream_new. destruct (hw (HwOpen i) w) as [r w1] eqn:E.
  intros H. inversion H; subst. split; [reflexivity|].
  apply (hw_extends _ _ _ _ E).
Qed.

Lemma Stream_configure_spec st inputCfg outputCfg (w w' : World D) ret st' :
  Stream_configure st inputCfg outputCfg w = (ret, st', w') ->
  extends (fun j => j = index_ st) w w'
  /\ ((ret <? 0) = false ->
      ret = 0
      /\ st' = mkStream (index_ st) (m2m_ st)
                        (bufferCount inputCfg) (bufferCount outputCfg)).
Proof.
  unfold Stream_configure.
  destruct (setFormat _ Output _ w) as [[r1 f1] w1] eqn:E1.
  pose proof (setFormat_extends _ _ _ _ _ _ _ E1) as X1.
  destruct (r1 <? 0) eqn:L1.
  { intros H; inversion H; subst. split; [exact X1|congruence]. }
  destruct (_ || _).
  { intros H; inversion H; subst. split; [exact X1|]. intros C; discriminate C. }
  destruct (setFormat _ Capture _ w1) as [[r2 f2] w2] eqn:E2.
  pose proof (setFormat_extends _ _ _ _ _ _ _ E2) as X2.
  pose proof (extends_trans _ _ _ _ X1 X2) as X.
  destruct (r2 <? 0) eqn:L2.
  { intros H; inversion H; subst. split; [exact X|congruence]. }
  destruct (_ || _).
  { intros H; inversion H; subst. split; [exact X|]. intros C; discriminate C. }
  intros H; inversion H; subst. split; [exact X|]. auto.
Qed.

Lemma create_stream_extends i inputCfg outputCfg (w w' : World D) ret st :
  create_stream i inputCfg outputCfg w = (ret, st, w') ->
  extends (fun j => j = i) w w'.
Proof.
  unfold create_stream. destruct (Stream_new i w) as [st0 w1] eqn:E0.
  destruct (Stream_new_spec _ _ _ _ E0) as [Hi X0].
  destruct (negb (isValid st0)).
  - intros H; inversion H; subst. exact X0.
  - intros H. destruct (Stream_configure_spec _ _ _ _ _ _ _ H) as [X1 _].
    rewrite Hi in X1. eapply extends_trans; eauto.
Qed.

Lemma configure_loop_spec inputCfg outputCfgs :
  forall i streams (w w' : World D) ret streams',
  configure_loop inputCfg outputCfgs i streams w = (ret, streams', w') ->
  ((ret <? 0) = false ->
     ret = 0 /\ exists new, streams' = streams ++ new
                           /\ built inputCfg outputCfgs i new)
  /\ ((ret <? 0) = true ->
      exists k cfg sk wk st,
        outputCfgs !! k = Some cfg
        /\ configure_loop inputCfg (take k outputCfgs) i streams w = (0, sk, wk)
        /\ create_stream (i + k) inputCfg cfg wk = (ret, st, w')
        /\ extends (fun j => j < i + k)%nat w wk).
Proof.
  induction outputCfgs as [|cfg rest IH]; intros i streams w w' ret streams' E;
    simpl in E.
  - inversion E; subst. split; [|intros C; discriminate C].
    intros _. split; [reflexivity|]. exists []. rewrite app_nil_r.
    split; [reflexivity|]. split; [reflexivity|]. intros k st C. inversion C.
  - destruct (Stream_new i w) as [st0 w1] eqn:E0.
    destruct (Stream_new_spec _ _ _ _ E0) as [Hi X0].
    destruct (isValid st0) eqn:V; simpl in E.
    2:{ inversion E; subst. split; [intros C; discriminate C|]. intros _.
        exists 0%nat, cfg, streams, w, st0. simpl.
        split; [reflexivity|]. split; [reflexivity|]. split.
        - unfold create_stream. rewrite Nat.add_0_r, E0, V. reflexivity.
        - apply extends_refl. }
    destruct (Stream_configure st0 inputCfg cfg w1) as [[r st1] w2] eqn:E1.
    destruct (Stream_configure_spec _ _ _ _ _ _ _ E1) as [X1 Hok].
    destruct (r <? 0) eqn:L.
    { inversion E; subst. split; [intros C; congruence|]. intros _.
      exists 0%nat, cfg, streams, w, st1. simpl.
      split; [reflexivity|]. split; [reflexivity|]. split.
      - unfold create_stream. rewrite Nat.add_0_r, E0, V. simpl. exact E1.
      - apply extends_refl. }
    destruct (Hok eq_refl) as [-> ->].
    destruct (IH _ _ _ _ _ _ E) as [IHok IHko]. split.
    + intros Hr. destruct (IHok Hr) as [-> (new & -> & Hlen & Hnew)].
      split; [reflexivity|].
      exists (mkStream (index_ st0) (m2m_ st0) (bufferCount inputCfg)
                (bufferCount cfg) :: new).
      rewrite <- app_assoc. split; [reflexivity|]. split; [simpl; lia|].
      intros [|k] st C; simpl in C.
      * inversion C; subst; simpl. rewrite Nat.add_0_r. repeat split; auto.
        exists cfg. auto.
      * destruct (Hnew k st C) as (A1 & A2 & A3 & cfg' & A4 & A5).
        repeat split; auto; [lia|]. exists cfg'. auto.
    + intros Hr. destruct (IHko Hr) as (k & cfg' & sk & wk & st & A1 & A2 & A3 & A4).
      exists (S k), cfg', sk, wk, st. simpl. rewrite E0, V. simpl.
      rewrite E1. simpl.
      replace (i + S k)%nat with (S i + k)%nat by lia.
      split; [exact A1|]. split; [exact A2|]. split; [exact A3|].
      eapply extends_trans; [|exact A4].
      eapply extends_weaken; [|eapply extends_trans; [exact X0|]].
      * intros j Hj. simpl in Hj. subst j. lia.
      * rewrite Hi in X1. exact X1.
Qed.

(** The streams a successful [configure] leaves sit at their indices,
    as the statements about [stop] and [queueBuffers] assume. *)
Lemma configure_indexed inputCfg outputCfgs (c : V4L2M2MConverter D) :
  (configure inputCfg outputCfgs c).1 = 0 ->
  indexed (streams_ (configure inputCfg outputCfgs c).2)
  /\ length (streams_ (configure inputCfg outputCfgs c).2) = length outputCfgs.
Proof.
  unfold configure.
  destruct (configure_loop inputCfg outputCfgs 0 [] (world c))
    as [[ret streams] w] eqn:E.
  destruct (configure_loop_spec _ _ _ _ _ _ _ _ E) as [Hok _].
  destruct (ret <? 0) eqn:L; simpl; [intros ->; discriminate L|].
  intros _. destruct (Hok eq_refl) as [_ (new & -> & Hlen & Hnew)]. simpl.
  split; [|exact Hlen]. intros i st Hi. apply (Hnew i st Hi).
Qed.

(** The two ways [configure] can end, read off its result. *)
Lemma configure_outcome (inputCfg : StreamConfiguration)
    (outputCfgs : list StreamConfiguration) (c : V4L2M2MConverter D) :
  let ret := (configure inputCfg outputCfgs c).1 in
  let c' := (configure inputCfg outputCfgs c).2 in
  queue_ c' = queue_ c /\ emitted c' = emitted c /\
  ((ret = 0
    /\ length (streams_ c') = length outputCfgs
    /\ forall i st, streams_ c' !! i = Some st ->
         index_ st = i /\ isValid st = true
         /\ inputBufferCount_ st = bufferCount inputCfg
         /\ exists cfg, outputCfgs !! i = Some cfg
                        /\ outputBufferCount_ st = bufferCount cfg)
   \/ (ret < 0
       /\ streams_ c' = []
       /\ exists i cfg,
            outputCfgs !! i = Some cfg
            /\ (configure inputCfg (take i outputCfgs) c).1 = 0
            /\ length (streams_ (configure inputCfg (take i outputCfgs) c).2) = i
            /\ (create_stream i inputCfg cfg
                  (world (configure inputCfg (take i outputCfgs) c).2)).1.1 = ret
            /\ (create_stream i inputCfg cfg
                  (world (configure inputCfg (take i outputCfgs) c).2)).2 = world c'
            /\ extends (fun j => j <= i)%nat (world c) (world c'))).
Proof.
  intros ret c'. subst ret c'. unfold configure.
  destruct (configure_loop inputCfg outputCfgs 0 [] (world c))
    as [[ret streams] w] eqn:E.
  destruct (configure_loop_spec _ _ _ _ _ _ _ _ E) as [Hok Hko].
  destruct (ret <? 0) eqn:L; simpl.
  - split; [reflexivity|]. split; [reflexivity|]. right.
    split; [lia|]. split; [reflexivity|].
    destruct (Hko eq_refl) as (k & cfg & sk & wk & st & A1 & A2 & A3 & A4).
    exists k, cfg. rewrite A2. simpl.
    destruct (configure_loop_spec _ _ _ _ _ _ _ _ A2) as [Bok _].
    destruct (Bok eq_refl) as [_ (new & -> & Hlen & _)]. simpl.
    simpl in A3. rewrite A3. simpl.
    split; [exact A1|]. split; [reflexivity|]. split.
    { rewrite Hlen, length_take. apply lookup_lt_Some in A1. lia. }
    split; [reflexivity|]. split; [reflexivity|].
    eapply extends_trans.
    + eapply extends_weaken; [|exact A4]. simpl. intros; lia.
    + eapply extends_weaken; [|eapply create_stream_extends; exact A3].
      simpl. intros; lia.
  - split; [reflexivity|]. split; [reflexivity|]. left.
    destruct (Hok eq_refl) as [_ (new & -> & Hlen & Hnew)]. simpl.
    split; [reflexivity|]. split; [exact Hlen|]. exact Hnew.
Qed.

Lemma configure_loop_created inputCfg outputCfgs :
  forall i streams (w w' : World D) new,
  created inputCfg i outputCfgs w new w' ->
  configure_loop inputCfg outputCfgs i streams w = (0, streams ++ new, w').
Proof.
  intros i streams w w' new H. revert streams.
  induction H as [i w|i cfg rest w r st w1 sts w2 Hc Hr _ IH]; intros streams.
  - simpl. rewrite app_nil_r. reflexivity.
  - simpl. unfold create_stream in Hc.
    destruct (Stream_new i w) as [st0 w0].
    destruct (negb (isValid st0)).
    { inversion Hc; subst. unfold EINVAL in Hr. lia. }
    rewrite Hc. assert ((r <? 0) = false) as -> by lia.
    rewrite IH, <- app_assoc. reflexivity.
Qed.

Lemma configure_loop_failed inputCfg done cfg rest :
  forall i streams (w w_i w' : World D) new r st,
  created inputCfg i done w new w_i ->
  create_stream (i + length done) inputCfg cfg w_i = (r, st, w') ->
  r < 0 ->
  exists streams',
    configure_loop inputCfg (done ++ cfg :: rest) i streams w = (r, streams', w').
Proof.
  intros i streams w w_i w' new r st H. revert streams.
  induction H as [i w|i cfg0 rest0 w r0 st0 w1 sts w2 Hc Hr0 _ IH];
    intros streams Hf Hr.
  - simpl in *. rewrite Nat.add_0_r in Hf. unfold create_stream in Hf.
    destruct (Stream_new i w) as [s0 w0].
    destruct (negb (isValid s0)).
    { inversion Hf; subst. eauto. }
    rewrite Hf. assert ((r <? 0) = true) as -> by lia. eauto.
  - simpl. unfold create_stream in Hc.
    destruct (Stream_new i w) as [s0 w0].
    destruct (negb (isValid s0)).
    { inversion Hc; subst. unfold EINVAL in Hr0. lia. }
    rewrite Hc. assert ((r0 <? 0) = false) as -> by lia.
    apply IH; [|exact Hr].
    simpl in Hf. rewrite <- Nat.add_succ_comm in Hf. exact Hf.
Qed.

(** C4.  [configure] leaves the pending table and the emitted signals
    alone and ends in one of two ways.  Either it returns 0 and
    [streams_] holds as many streams as there are output
    configurations, stream [i] sitting at position [i], valid, and
    carrying the buffer counts of the input configuration and of the
    [i]-th output configuration.  Or it returns a negative code and
    [streams_] is empty; then there is a first failing stream [i]: the
    streams before it were set up as a [configure] of the first [i]
    output configurations alone sets them up, creating stream [i] from
    there fails with the code returned ([-EINVAL] when its device could
    not be opened, the code of its [Stream::configure] otherwise), the
    devices are left as that failure left them, and no call at all was
    made on a stream after [i].

    Which of the two it is, the devices decide.  When every stream can
    be created in turn, [configure] returns 0 with exactly the streams
    created and the world the last creation left.  When the streams
    before some stream can be created in turn and the creation of that
    stream fails, [configure] returns the code of that failure, with no
    stream left and the world that failure left: nothing is attempted
    for the output configurations after it. *)
Theorem configure_engines (inputCfg : StreamConfiguration)
    (outputCfgs : list StreamConfiguration) (c : V4L2M2MConverter D) :
  let ret := (configure inputCfg outputCfgs c).1 in
  let c' := (configure inputCfg outputCfgs c).2 in
  queue_ c' = queue_ c /\ emitted c' = emitted c /\
  ((ret = 0
    /\ length (streams_ c') = length outputCfgs
    /\ forall i st, streams_ c' !! i = Some st ->
         index_ st = i /\ isValid st = true
         /\ inputBufferCount_ st = bufferCount inputCfg
         /\ exists cfg, outputCfgs !! i = Some cfg
                        /\ outputBufferCount_ st = bufferCount cfg)
   \/ (ret < 0
       /\ streams_ c' = []
       /\ exists i cfg,
            outputCfgs !! i = Some cfg
            /\ (configure inputCfg (take i outputCfgs) c).1 = 0
            /\ length (streams_ (configure inputCfg (take i outputCfgs) c).2) = i
            /\ (create_stream i inputCfg cfg
                  (world (configure inputCfg (take i outputCfgs) c).2)).1.1 = ret
            /\ (create_stream i inputCfg cfg
                  (world (configure inputCfg (take i outputCfgs) c).2)).2 = world c'
            /\ extends (fun j => j <= i)%nat (world c) (world c')))
  /\ (forall streams w',
        created inputCfg 0 outputCfgs (world c) streams w' ->
        configure inputCfg outputCfgs c
        = (0, set_streams streams (set_world w' c)))
  /\ (forall done cfg rest streams w_i r st w',
        outputCfgs = done ++ cfg :: rest ->
        created inputCfg 0 done (world c) streams w_i ->
        create_stream (length done) inputCfg cfg w_i = (r, st, w') ->
        r < 0 ->
        configure inputCfg outputCfgs c
        = (r, set_streams [] (set_world w' c))).
Proof.
  intros ret c'.
  destruct (configure_outcome inputCfg outputCfgs c) as (H1 & H2 & H3).
  split; [exact H1|]. split; [exact H2|]. split; [exact H3|]. split.
  - intros streams w' Hc. unfold configure.
    rewrite (configure_loop_created _ _ _ [] _ _ _ Hc). reflexivity.
  - intros done cfg rest streams w_i r st w' -> Hc Hf Hr. unfold configure.
    destruct (configure_loop_failed inputCfg done cfg rest 0 [] _ _ _ _ _ _
                Hc Hf Hr) as [streams' ->].
    assert ((r <? 0) = true) as -> by lia. reflexivity.
Qed.

End Configure.

Lemma configure_engines_witness :
  configure cfg_in [cfg_out0; cfg_out1; cfg_out0] (converter0 second_unavailable tt)
  = (- EINVAL,
     set_streams []
       (set_world
          (mkWorld (D := second_unavailable) tt
             [HwOpen 0;
              HwSetFormat 0 Output (input_request 1 cfg_in);
              HwSetFormat 0 Capture (output_request 2 cfg_out0);
              HwOpen 1])
          (converter0 second_unavailable tt))).
Proof.
  destruct (configure_engines (D := second_unavailable) cfg_in
              [cfg_out0; cfg_out1; cfg_out0] (converter0 second_unavailable tt))
    as (_ & _ & _ & _ & H).
  apply (H [cfg_out0] cfg_out1 [cfg_out0] [mkStream 0 true 4 4]
           (mkWorld (D := second_unavailable) tt
              [HwOpen 0;
               HwSetFormat 0 Output (input_request 1 cfg_in);
               HwSetFormat 0 Capture (output_request 2 cfg_out0)])
           (- EINVAL) (mkStream 1 false 0 0)).
  - reflexivity.
  - eapply created_cons; [reflexivity|lia|apply created_nil].
  - reflexivity.
  - unfold EINVAL. lia.
Defined.

(** With the device of stream 1 missing, [configure] for three outputs
    opens and configures stream 0, fails to open stream 1 and never
    touches stream 2. *)
Example configure_second_unavailable :
  configure cfg_in [cfg_out0; cfg_out1; cfg_out0] (converter0 second_unavailable tt)
  = (- EINVAL,
     mkConverter [] ∅
       (mkWorld (D := second_unavailable) tt
          [HwOpen 0;
           HwSetFormat 0 Output (input_request 1 cfg_in);
           HwSetFormat 0 Capture (output_request 2 cfg_out0);
           HwOpen 1]) []).
Proof. reflexivity. Qed.

Example configure_two_streams :
  configure cfg_in [cfg_out0; cfg_out1] (converter0 ideal tt)
  = (0,
     mkConverter two_streams ∅
       (mkWorld (D := ideal) tt
          [HwOpen 0;
           HwSetFormat 0 Output (input_request 1 cfg_in);
           HwSetFormat 0 Capture (output_request 2 cfg_out0);
           HwOpen 1;
           HwSetFormat 1 Output (input_request 1 cfg_in);
           HwSetFormat 1 Capture (output_request 3 cfg_out1)]) []).
Proof. reflexivity. Qed.

(** ** V4L2M2MConverter::queueBuffers *)

Section QueueBuffers.

Context {D : Device}.

Lemma validate_loop_ok nstreams outputs :
  forall acc, Forall (entry_ok nstreams) outputs ->
  validate_loop nstreams outputs acc = Some (distinct_buffers outputs ∪ acc).
Proof.
  unfold distinct_buffers.
  induction outputs as [|[index buffer] rest IH]; intros acc H; simpl.
  - f_equal. simpl. rewrite union_empty_l_L. reflexivity.
  - inversion H as [|? ? [Hb Hi] Hrest]; subst. simpl in Hb, Hi.
    rewrite bool_decide_eq_false_2 by exact Hb.
    rewrite bool_decide_eq_false_2 by lia.
    rewrite IH by exact Hrest. f_equal. simpl.
    rewrite (assoc_L (∪)), (comm_L (∪) _ {[buffer]}). reflexivity.
Qed.

Lemma validate_loop_Some nstreams outputs :
  forall acc s, validate_loop nstreams outputs acc = Some s ->
  Forall (entry_ok nstreams) outputs.
Proof.
  induction outputs as [|[index buffer] rest IH]; intros acc s H; simpl in H.
  - constructor.
  - destruct (bool_decide_reflect (buffer = nullptr)); [discriminate H|].
    destruct (bool_decide_reflect (nstreams <= index)%nat); [discriminate H|].
    constructor; [split; simpl; [assumption|lia]|]. eapply IH; eauto.
Qed.

Lemma validate_true nstreams outputs :
  validate nstreams outputs = true <->
  outputs <> [] /\ Forall (entry_ok nstreams) outputs
  /\ base.size (distinct_buffers outputs) = nstreams.
Proof.
  unfold validate. split.
  - intros H. destruct outputs as [|e rest]; [discriminate H|].
    destruct (validate_loop nstreams (e :: rest) ∅) as [s|] eqn:E;
      [|discriminate H].
    pose proof (validate_loop_Some _ _ _ _ E) as F.
    rewrite (validate_loop_ok _ _ _ F) in E. inversion E; subst.
    apply bool_decide_eq_true_1 in H.
    split; [discriminate|]. split; [exact F|].
    rewrite <- H. f_equal. rewrite union_empty_r_L. reflexivity.
  - intros (Hne & F & Hs). destruct outputs as [|e rest]; [congruence|].
    rewrite (validate_loop_ok _ _ _ F). apply bool_decide_eq_true_2.
    rewrite <- Hs. f_equal. rewrite union_empty_r_L. reflexivity.
Qed.

(** C1.  A request with no output, or with an output for a stream index
    that is not below the number of streams, or with a null output
    buffer, or whose distinct output buffers are not as many as the
    streams, is answered with [-EINVAL] and leaves the converter and
    the devices exactly as they were: nothing is queued, no call
    reaches any device. *)
Theorem queueBuffers_invalid_argument (input : FrameBuffer)
    (outputs : list (nat * FrameBuffer)) (c : V4L2M2MConverter D) :
  outputs = []
  \/ (exists index buffer,
        (index, buffer) ∈ outputs /\ (length (streams_ c) <= index)%nat)
  \/ (exists index, (index, nullptr) ∈ outputs)
  \/ base.size (distinct_buffers outputs) <> length (streams_ c) ->
  queueBuffers input outputs c = (- EINVAL, c).
Proof.
  intros H. unfold queueBuffers.
  destruct (validate (length (streams_ c)) outputs) eqn:V; [|reflexivity].
  exfalso. apply validate_true in V. destruct V as (Hne & F & Hs).
  rewrite Forall_forall in F.
  destruct H as [H|[(index & buffer & Hin & Hge)|[(index & Hin)|H]]].
  - contradiction.
  - destruct (F _ Hin) as [_ Hlt]. simpl in Hlt. lia.
  - destruct (F _ Hin) as [Hnn _]. simpl in Hnn. congruence.
  - contradiction.
Qed.

Lemma Stream_queueBuffers_spec st input output (w w' : World D) ret :
  Stream_queueBuffers st input output w = (ret, w') ->
  (ret <? 0) = false ->
  ret = 0 /\ calls w' = calls w ++ queue_calls input (index_ st, output).
Proof.
  unfold Stream_queueBuffers, queue_calls. simpl.
  destruct (hw (HwQueueBuffer (index_ st) Output input) w) as [r1 w1] eqn:E1.
  destruct (r1 <? 0) eqn:L1.
  { intros H; inversion H; subst. congruence. }
  destruct (hw (HwQueueBuffer (index_ st) Capture output) w1) as [r2 w2] eqn:E2.
  destruct (r2 <? 0) eqn:L2.
  { intros H; inversion H; subst. congruence. }
  intros H _; inversion H; subst. split; [reflexivity|].
  rewrite (hw_calls_eq _ _ _ _ E2), (hw_calls_eq _ _ _ _ E1), <- app_assoc.
  reflexivity.
Qed.

Lemma indexed_lookup_total (streams : list Stream) i :
  indexed streams -> (i < length streams)%nat -> index_ (streams !!! i) = i.
Proof.
  intros Hidx Hlt. apply Hidx. apply list_lookup_lookup_total_lt. exact Hlt.
Qed.

Lemma queue_loop_spec streams input outputs :
  indexed streams ->
  Forall (entry_ok (length streams)) outputs ->
  forall (w w' : World D) ret,
  queue_loop streams input outputs w = (ret, w') ->
  ((ret <? 0) = false ->
     ret = 0 /\ calls w' = calls w ++ flat_map (queue_calls input) outputs)
  /\ ((ret <? 0) = true ->
      exists done e rest w_e,
        outputs = done ++ e :: rest
        /\ queue_loop streams input done w = (0, w_e)
        /\ calls w_e = calls w ++ flat_map (queue_calls input) done
        /\ Stream_queueBuffers (streams !!! e.1) input e.2 w_e = (ret, w')).
Proof.
  intros Hidx F. induction F as [|[index buffer] rest [_ Hlt] F IH];
    intros w w' ret E; simpl in E.
  - inversion E; subst. split; [|intros C; discriminate C].
    intros _. simpl. rewrite app_nil_r. auto.
  - simpl in Hlt.
    destruct (Stream_queueBuffers (streams !!! index) input buffer w)
      as [r w1] eqn:E1.
    destruct (r <? 0) eqn:L.
    + inversion E; subst. split; [congruence|]. intros _.
      exists [], (index, buffer), rest, w. simpl. rewrite app_nil_r. auto.
    + destruct (Stream_queueBuffers_spec _ _ _ _ _ _ E1 L) as [-> Hc1].
      rewrite (indexed_lookup_total _ _ Hidx Hlt) in Hc1.
      destruct (IH _ _ _ E) as [IHok IHko]. split.
      * intros Hr. destruct (IHok Hr) as [-> Hc]. split; [reflexivity|].
        rewrite Hc, Hc1. simpl. rewrite <- app_assoc. reflexivity.
      * intros Hr.
        destruct (IHko Hr) as (done & e & rest' & w_e & -> & A1 & A2 & A3).
        exists ((index, buffer) :: done), e, rest', w_e. simpl.
        rewrite E1. simpl. split; [reflexivity|]. split; [exact A1|].
        split; [|exact A3].
        rewrite A2, Hc1. simpl. rewrite <- app_assoc. reflexivity.
Qed.

Lemma map_wf_NoDup outputs : map_wf outputs -> NoDup outputs.*1.
Proof.
  unfold map_wf. induction 1 as [|x l _ IH Hx]; constructor; [|exact IH].
  intros Hin. rewrite Forall_forall in Hx. specialize (Hx _ Hin). lia.
Qed.

Lemma map_wf_length nstreams outputs :
  map_wf outputs -> Forall (entry_ok nstreams) outputs ->
  (length outputs <= nstreams)%nat.
Proof.
  intros Hwf F.
  assert (length outputs.*1 <= length (seq 0 nstreams))%nat as H.
  { apply submseteq_length, NoDup_submseteq; [apply map_wf_NoDup; exact Hwf|].
    intros x Hx. apply list_elem_of_fmap in Hx. destruct Hx as (e & -> & He).
    rewrite Forall_forall in F. destruct (F _ He) as [_ Hlt].
    apply elem_of_seq. lia. }
  rewrite length_fmap, length_seq in H. exact H.
Qed.

Lemma size_list_to_set_le (l : list N) :
  (base.size (list_to_set l : gset N) <= length l)%nat.
Proof.
  induction l as [|x l IH].
  - rewrite list_to_set_nil, size_empty. simpl. lia.
  - rewrite list_to_set_cons, size_union_alt, size_singleton. simpl.
    assert (base.size ((list_to_set l : gset N) ∖ {[x]})
            <= base.size (list_to_set l : gset N))%nat
      by (apply subseteq_size, subseteq_difference_l; reflexivity).
    lia.
Qed.

(** In an accepted request every stream has exactly one entry. *)
Lemma validate_length nstreams outputs :
  validate nstreams outputs = true -> map_wf outputs ->
  length outputs = nstreams.
Proof.
  intros V Hwf. apply validate_true in V. destruct V as (_ & F & Hs).
  pose proof (map_wf_length _ _ Hwf F) as H1.
  pose proof (size_list_to_set_le (outputs.*2)) as H2.
  unfold distinct_buffers in Hs. rewrite Hs, length_fmap in H2. lia.
Qed.

Lemma to_uint_small z : 0 <= z < UINT_MOD -> to_uint z = z.
Proof. intros H. unfold to_uint. apply Z.mod_small. exact H. Qed.

(** The two ways an accepted request can end, read off its result. *)
Lemma queueBuffers_outcome (input : FrameBuffer)
    (outputs : list (nat * FrameBuffer)) (c : V4L2M2MConverter D) :
  validate (length (streams_ c)) outputs = true ->
  map_wf outputs ->
  indexed (streams_ c) ->
  Z.of_nat (length (streams_ c)) < UINT_MOD ->
  let ret := (queueBuffers input outputs c).1 in
  let c' := (queueBuffers input outputs c).2 in
  streams_ c' = streams_ c /\ emitted c' = emitted c /\
  ((ret = 0
    /\ calls (world c')
       = calls (world c) ++ flat_map (queue_calls input) outputs
    /\ (queue_ c !! input = None ->
        queue_ c' = <[input := Z.of_nat (length outputs)]> (queue_ c))
    /\ (is_Some (queue_ c !! input) -> queue_ c' = queue_ c))
   \/ (ret < 0
       /\ queue_ c' = queue_ c
       /\ exists done e rest w_e,
            outputs = done ++ e :: rest
            /\ queue_loop (streams_ c) input done (world c) = (0, w_e)
            /\ calls w_e
               = calls (world c) ++ flat_map (queue_calls input) done
            /\ Stream_queueBuffers (streams_ c !!! e.1) input e.2 w_e
               = (ret, world c'))).
Proof.
  intros V Hwf Hidx Hsz ret c'. subst ret c'. unfold queueBuffers.
  rewrite V. simpl.
  pose proof (validate_length _ _ V Hwf) as Hlen.
  apply validate_true in V. destruct V as (_ & F & _).
  destruct (queue_loop (streams_ c) input outputs (world c)) as [r w] eqn:E.
  destruct (queue_loop_spec _ _ _ Hidx F _ _ _ E) as [Hok Hko].
  destruct (r <? 0) eqn:L; simpl.
  - split; [reflexivity|]. split; [reflexivity|]. right.
    split; [lia|]. split; [reflexivity|]. apply Hko. reflexivity.
  - split; [reflexivity|]. split; [reflexivity|]. left.
    destruct (Hok eq_refl) as [-> Hc]. split; [reflexivity|].
    split; [exact Hc|]. unfold emplace.
    rewrite to_uint_small by lia. split.
    + intros ->. reflexivity.
    + intros [n ->]. reflexivity.
Qed.

Lemma queue_loop_submitted streams input outputs (w w' : World D) :
  submitted streams input outputs w w' ->
  queue_loop streams input outputs w = (0, w').
Proof.
  induction 1 as [w|e rest w r w1 w2 Hq Hr _ IH]; [reflexivity|].
  destruct e as [index buffer]. simpl in *. rewrite Hq.
  assert ((r <? 0) = false) as -> by lia. exact IH.
Qed.

Lemma queue_loop_failed streams input done e rest (w w_e w' : World D) r :
  submitted streams input done w w_e ->
  Stream_queueBuffers (streams !!! e.1) input e.2 w_e = (r, w') ->
  r < 0 ->
  queue_loop streams input (done ++ e :: rest) w = (r, w').
Proof.
  intros H Hf Hr.
  induction H as [w|e0 rest0 w r0 w1 w2 Hq Hr0 _ IH].
  - destruct e as [index buffer]. simpl in *. rewrite Hf.
    assert ((r <? 0) = true) as -> by lia. reflexivity.
  - destruct e0 as [index0 buffer0]. simpl in *. rewrite Hq.
    assert ((r0 <? 0) = false) as -> by lia. apply IH. exact Hf.
Qed.

(** C2, amended.  For a request that passes validation, on streams
    sitting at their indices: the submissions go stream by stream in
    the order of the output map.  Either all succeed: then 0 is
    returned, the devices have received, for each entry in order, the
    input buffer and then the output buffer of the entry, and the
    pending table has gained an entry for the input buffer counting the
    outputs of the request, provided the input buffer had no entry
    before; if it had one the table is left as it was.  Or a
    submission fails: then its code is returned, the entries before it
    have been submitted in full, the devices are left as the failing
    submission left them with nothing attempted for the entries after
    it, and the pending table is unchanged.  In no case is a signal
    emitted.

    Which of the two it is, the devices decide.  When every entry is
    submitted in turn with a code that is not negative, the call
    returns 0 and registers the input buffer, on top of the world the
    last submission left.  When the entries before some entry are so
    submitted and the submission of that entry answers with a negative
    code, the call returns that code and the converter is as before
    but for the world, which is the one the failing submission left:
    no entry is registered and no later entry is submitted. *)
Theorem queueBuffers_submission (input : FrameBuffer)
    (outputs : list (nat * FrameBuffer)) (c : V4L2M2MConverter D) :
  validate (length (streams_ c)) outputs = true ->
  map_wf outputs ->
  indexed (streams_ c) ->
  Z.of_nat (length (streams_ c)) < UINT_MOD ->
  let ret := (queueBuffers input outputs c).1 in
  let c' := (queueBuffers input outputs c).2 in
  streams_ c' = streams_ c /\ emitted c' = emitted c /\
  ((ret = 0
    /\ calls (world c')
       = calls (world c) ++ flat_map (queue_calls input) outputs
    /\ (queue_ c !! input = None ->
        queue_ c' = <[input := Z.of_nat (length outputs)]> (queue_ c))
    /\ (is_Some (queue_ c !! input) -> queue_ c' = queue_ c))
   \/ (ret < 0
       /\ queue_ c' = queue_ c
       /\ exists done e rest w_e,
            outputs = done ++ e :: rest
            /\ queue_loop (streams_ c) input done (world c) = (0, w_e)
            /\ calls w_e
               = calls (world c) ++ flat_map (queue_calls input) done
            /\ Stream_queueBuffers (streams_ c !!! e.1) input e.2 w_e
               = (ret, world c')))
  /\ (forall w',
        submitted (streams_ c) input outputs (world c) w' ->
        queueBuffers input outputs c
        = (0, set_queue (emplace input (Z.of_nat (length outputs)) (queue_ c))
                (set_world w' c)))
  /\ (forall done e rest w_e r w',
        outputs = done ++ e :: rest ->
        submitted (streams_ c) input done (world c) w_e ->
        Stream_queueBuffers (streams_ c !!! e.1) input e.2 w_e = (r, w') ->
        r < 0 ->
        queueBuffers input outputs c = (r, set_world w' c)).
Proof.
  intros V Hwf Hidx Hsz ret c'.
  destruct (queueBuffers_outcome input outputs c V Hwf Hidx Hsz)
    as (H1 & H2 & H3).
  split; [exact H1|]. split; [exact H2|]. split; [exact H3|].
  pose proof (validate_length _ _ V Hwf) as Hlen.
  split.
  - intros w' Hs. unfold queueBuffers. rewrite V. simpl.
    rewrite (queue_loop_submitted _ _ _ _ _ Hs). simpl.
    rewrite to_uint_small by lia. reflexivity.
  - intros done e rest w_e r w' -> Hs Hf Hr. unfold queueBuffers.
    rewrite V. simpl.
    rewrite (queue_loop_failed _ _ _ _ rest _ _ _ _ Hs Hf Hr).
    assert ((r <? 0) = true) as -> by lia. reflexivity.
Qed.

End QueueBuffers.

Lemma queueBuffers_invalid_argument_witness :
  queueBuffers 100%N [(0%nat, 200%N); (1%nat, 200%N)] (converter2 ideal tt)
  = (- EINVAL, converter2 ideal tt).
Proof.
  apply (queueBuffers_invalid_argument (D := ideal)).
  right. right. right. vm_compute. lia.
Defined.

(** With buffer 100 queued and half done, queueing it again succeeds on
    every stream but its entry still counts 1, not 2. *)
Lemma requeued_input_not_registered :
  ~ registered_as_worded 100%N outs2 (half_done ideal tt).
Proof.
  intros H. specialize (H eq_refl eq_refl). vm_compute in H. discriminate H.
Qed.

Lemma queueBuffers_submission_witness :
  queueBuffers 100%N outs2 (converter2 second_refuses tt)
  = (- EIO,
     set_world
       (mkWorld (D := second_refuses) tt
          [HwQueueBuffer 0 Output 100%N; HwQueueBuffer 0 Capture 200%N;
           HwQueueBuffer 1 Output 100%N; HwQueueBuffer 1 Capture 300%N])
       (converter2 second_refuses tt)).
Proof.
  assert (validate (length (streams_ (converter2 second_refuses tt))) outs2 = true)
    as V by reflexivity.
  assert (map_wf outs2) as Hwf by (repeat constructor).
  assert (indexed (streams_ (converter2 second_refuses tt))) as Hidx.
  { intros i st. destruct i as [|[|i]]; simpl; intros E; inversion E; reflexivity. }
  assert (Z.of_nat (length (streams_ (converter2 second_refuses tt))) < UINT_MOD)
    as Hsz by reflexivity.
  destruct (queueBuffers_submission (D := second_refuses) 100%N outs2
              (converter2 second_refuses tt) V Hwf Hidx Hsz)
    as (_ & _ & _ & _ & H).
  apply (H [(0%nat, 200%N)] (1%nat, 300%N) []
           (mkWorld (D := second_refuses) tt
              [HwQueueBuffer 0 Output 100%N; HwQueueBuffer 0 Capture 200%N])).
  - reflexivity.
  - eapply submitted_cons; [reflexivity|lia|apply submitted_nil].
  - reflexivity.
  - unfold EIO. lia.
Defined.

(** ** Completion of input buffers *)

Section Completion.

Context {D : Device}.

Lemma consumed_snoc b l s :
  consumed b (l ++ [s])
  = (consumed b l + if decide (s = inputBufferReady b) then 1 else 0)%nat.
Proof.
  unfold consumed. rewrite filter_app, length_app. f_equal.
  destruct (decide (s = inputBufferReady b)) as [->|Hne].
  - rewrite filter_cons_True by reflexivity. reflexivity.
  - rewrite filter_cons_False by exact Hne. reflexivity.
Qed.

Lemma queueBuffers_frame input outputs (c : V4L2M2MConverter D) :
  streams_ (queueBuffers input outputs c).2 = streams_ c
  /\ emitted (queueBuffers input outputs c).2 = emitted c
  /\ (forall b, b <> input ->
        queue_ (queueBuffers input outputs c).2 !! b = queue_ c !! b)
  /\ (is_Some (queue_ c !! input) ->
        queue_ (queueBuffers input outputs c).2 = queue_ c).
Proof.
  unfold queueBuffers.
  destruct (validate _ _); simpl; [|auto].
  destruct (queue_loop _ _ _ _) as [r w].
  destruct (r <? 0); simpl; [auto|].
  repeat split; unfold emplace.
  - intros b Hb. destruct (queue_ c !! input); [reflexivity|].
    apply lookup_insert_ne. congruence.
  - intros [n ->]. reflexivity.
Qed.

(** An accepted request on a free input buffer registers it with the
    number of streams. *)
Lemma queueBuffers_registers input outputs (c : V4L2M2MConverter D) :
  queue_ c !! input = None ->
  map_wf outputs ->
  Z.of_nat (length (streams_ c)) < UINT_MOD ->
  (queueBuffers input outputs c).1 = 0 ->
  length outputs = length (streams_ c)
  /\ (0 < length outputs)%nat
  /\ queue_ (queueBuffers input outputs c).2
     = <[input := Z.of_nat (length outputs)]> (queue_ c).
Proof.
  intros Hfree Hwf Hsz. unfold queueBuffers.
  destruct (validate (length (streams_ c)) outputs) eqn:V; simpl;
    [|intros C; discriminate C].
  pose proof (validate_length _ _ V Hwf) as Hlen.
  apply validate_true in V. destruct V as (Hne & _ & _).
  destruct (queue_loop _ _ _ _) as [r w].
  destruct (r <? 0) eqn:L; simpl; [intros ->; discriminate L|].
  intros _. split; [exact Hlen|]. split.
  { destruct outputs; [congruence|simpl; lia]. }
  unfold emplace. rewrite Hfree, to_uint_small by lia. reflexivity.
Qed.

Lemma queueBuffers_queue_wf input outputs (c : V4L2M2MConverter D) :
  map_wf outputs ->
  Z.of_nat (length (streams_ c)) < UINT_MOD ->
  queue_wf c -> queue_wf (queueBuffers input outputs c).2.
Proof.
  intros Hwf Hsz Hq b n.
  destruct (queue_ c !! input) as [m|] eqn:E.
  - destruct (queueBuffers_frame input outputs c) as (_ & _ & _ & H).
    rewrite H by eauto. apply Hq.
  - destruct (decide ((queueBuffers input outputs c).1 = 0)) as [Hr|Hr].
    + destruct (queueBuffers_registers _ _ _ E Hwf Hsz Hr) as (Hlen & Hpos & ->).
      destruct (decide (b = input)) as [->|Hne].
      * rewrite lookup_insert_eq. intros H; inversion H; subst. lia.
      * rewrite lookup_insert_ne by congruence. apply Hq.
    + revert Hr. unfold queueBuffers.
      destruct (validate _ _); simpl; [|intros _; apply Hq].
      destruct (queue_loop _ _ _ _) as [r w].
      destruct (r <? 0); simpl; [intros _; apply Hq|congruence].
Qed.

Lemma outputBufferReady_queue_wf buffer (c : V4L2M2MConverter D) :
  queue_wf c -> queue_wf (Stream_outputBufferReady buffer c).
Proof.
  intros Hq b n. unfold Stream_outputBufferReady.
  destruct (queue_ c !! buffer) as [m|] eqn:E; [|apply Hq].
  pose proof (Hq _ _ E) as Hm.
  rewrite to_uint_small by lia.
  destruct (Z.eqb_spec (m - 1) 0) as [Hz|Hz]; simpl.
  - destruct (decide (b = buffer)) as [->|Hne].
    + rewrite lookup_delete_eq. intros C; discriminate C.
    + rewrite lookup_delete_ne by congruence. apply Hq.
  - destruct (decide (b = buffer)) as [->|Hne].
    + rewrite lookup_insert_eq. intros H; inversion H; subst. lia.
    + rewrite lookup_insert_ne by congruence. apply Hq.
Qed.

Lemma dispatch_streams e (c : V4L2M2MConverter D) :
  streams_ (dispatch e c) = streams_ c.
Proof.
  destruct e; simpl.
  - apply queueBuffers_frame.
  - unfold Stream_outputBufferReady. destruct (queue_ c !! buffer); [|reflexivity].
    destruct (_ =? _); reflexivity.
  - reflexivity.
Qed.

Lemma run_queue_wf evs :
  forall c : V4L2M2MConverter D,
  Z.of_nat (length (streams_ c)) < UINT_MOD ->
  Forall event_wf evs ->
  queue_wf c -> queue_wf (run evs c).
Proof.
  induction evs as [|e evs IH]; intros c Hsz F Hq; [exact Hq|].
  inversion F as [|? ? He Hevs]; subst. unfold run. simpl. apply IH.
  - rewrite dispatch_streams. exact Hsz.
  - exact Hevs.
  - destruct e; simpl.
    + apply queueBuffers_queue_wf; auto.
    + apply outputBufferReady_queue_wf; auto.
    + exact Hq.
Qed.

(** One event, seen from a buffer that has no entry. *)
Lemma dispatch_absent b e (c : V4L2M2MConverter D) :
  queue_ c !! b = None -> ~ requeues b e ->
  queue_ (dispatch e c) !! b = None
  /\ consumed b (emitted (dispatch e c)) = consumed b (emitted c).
Proof.
  intros Hfree Hnq. destruct e as [input outputs|i buffer|i buffer]; simpl.
  - simpl in Hnq.
    destruct (queueBuffers_frame input outputs c) as (_ & -> & Hother & _).
    rewrite Hother by congruence. auto.
  - unfold Stream_outputBufferReady.
    destruct (queue_ c !! buffer) as [m|] eqn:E; [|auto].
    assert (b <> buffer) as Hne by congruence.
    destruct (_ =? _); simpl.
    + rewrite lookup_delete_ne by congruence. split; [exact Hfree|].
      rewrite consumed_snoc. rewrite decide_False by congruence. lia.
    + rewrite lookup_insert_ne by congruence. auto.
  - split; [exact Hfree|]. rewrite consumed_snoc.
    rewrite decide_False by discriminate. lia.
Qed.

(** One event, seen from a buffer whose entry counts [n]. *)
Lemma dispatch_live b n e (c : V4L2M2MConverter D) :
  queue_ c !! b = Some n -> 0 < n < UINT_MOD -> ~ requeues b e ->
  (~ is_done b e ->
     queue_ (dispatch e c) !! b = Some n
     /\ consumed b (emitted (dispatch e c)) = consumed b (emitted c))
  /\ (is_done b e -> 1 < n ->
      queue_ (dispatch e c) !! b = Some (n - 1)
      /\ consumed b (emitted (dispatch e c)) = consumed b (emitted c))
  /\ (is_done b e -> n = 1 ->
      queue_ (dispatch e c) !! b = None
      /\ consumed b (emitted (dispatch e c)) = S (consumed b (emitted c))).
Proof.
  intros Hlive Hn Hnq. destruct e as [input outputs|i buffer|i buffer]; simpl.
  - simpl in Hnq.
    destruct (queueBuffers_frame input outputs c) as (_ & -> & Hother & _).
    rewrite Hother by congruence. tauto.
  - unfold Stream_outputBufferReady.
    destruct (decide (buffer = b)) as [->|Hne].
    + rewrite Hlive, to_uint_small by lia.
      destruct (Z.eqb_spec (n - 1) 0) as [Hz|Hz]; simpl.
      * rewrite lookup_delete_eq, consumed_snoc, decide_True by reflexivity.
        repeat split; intros; try tauto; lia.
      * rewrite lookup_insert_eq.
        repeat split; intros; try tauto; lia.
    + destruct (queue_ c !! buffer) as [m|] eqn:E; [|tauto].
      destruct (_ =? _); simpl.
      * rewrite lookup_delete_ne by congruence.
        rewrite consumed_snoc, decide_False by congruence.
        rewrite Nat.add_0_r. tauto.
      * rewrite lookup_insert_ne by congruence. tauto.
  - rewrite consumed_snoc, decide_False by discriminate.
    rewrite Nat.add_0_r. tauto.
Qed.

Lemma run_cons e evs (c : V4L2M2MConverter D) :
  run (e :: evs) c = run evs (dispatch e c).
Proof. reflexivity. Qed.

Lemma done_count_cons b e evs :
  done_count b (e :: evs)
  = ((if decide (is_done b e) then 1 else 0) + done_count b evs)%nat.
Proof.
  unfold done_count. destruct (decide (is_done b e)) as [H|H].
  - rewrite filter_cons_True by exact H. reflexivity.
  - rewrite filter_cons_False by exact H. reflexivity.
Qed.

Lemma run_absent b evs :
  forall c : V4L2M2MConverter D,
  queue_ c !! b = None -> Forall (fun e => ~ requeues b e) evs ->
  queue_ (run evs c) !! b = None
  /\ consumed b (emitted (run evs c)) = consumed b (emitted c).
Proof.
  induction evs as [|e evs IH]; intros c Hfree F; [auto|].
  inversion F as [|? ? He Hevs]; subst. rewrite run_cons.
  destruct (dispatch_absent b e c Hfree He) as [H1 H2].
  destruct (IH _ H1 Hevs) as [H3 H4]. split; [exact H3|congruence].
Qed.

(** A run without a new request for [b], seen from an entry that counts
    [n]: the entry lives, counting down, through the first [n - 1]
    completions of [b]; the [n]-th removes it and emits the one
    signal; from then on nothing happens for [b]. *)
Lemma run_live b evs :
  forall (c : V4L2M2MConverter D) n,
  queue_ c !! b = Some n -> 0 < n < UINT_MOD ->
  Forall (fun e => ~ requeues b e) evs ->
  (Z.of_nat (done_count b evs) < n ->
     queue_ (run evs c) !! b = Some (n - Z.of_nat (done_count b evs))
     /\ consumed b (emitted (run evs c)) = consumed b (emitted c))
  /\ (n <= Z.of_nat (done_count b evs) ->
      queue_ (run evs c) !! b = None
      /\ consumed b (emitted (run evs c)) = S (consumed b (emitted c))).
Proof.
  induction evs as [|e evs IH]; intros c n Hlive Hn F.
  - unfold done_count. simpl. split; [|lia]. intros _.
    rewrite Z.sub_0_r. auto.
  - inversion F as [|? ? He Hevs]; subst. rewrite run_cons, done_count_cons.
    destruct (dispatch_live b n e c Hlive Hn He) as (Hstay & Hdec & Hlast).
    destruct (decide (is_done b e)) as [Hd|Hd].
    + destruct (decide (n = 1)) as [->|Hn1].
      * destruct (Hlast Hd eq_refl) as [H1 H2].
        destruct (run_absent b evs _ H1 Hevs) as [H3 H4].
        split; [lia|]. intros _. split; [exact H3|congruence].
      * destruct (Hdec Hd ltac:(lia)) as [H1 H2].
        destruct (IH _ _ H1 ltac:(lia) Hevs) as [IH1 IH2]. split.
        -- intros Hlt. destruct (IH1 ltac:(lia)) as [H3 H4].
           split; [|congruence]. rewrite H3. f_equal. lia.
        -- intros Hle. destruct (IH2 ltac:(lia)) as [H3 H4].
           split; [exact H3|congruence].
    + destruct (Hstay Hd) as [H1 H2].
      destruct (IH _ _ H1 Hn Hevs) as [IH1 IH2]. simpl. split.
      * intros Hlt. destruct (IH1 Hlt) as [H3 H4]. split; [exact H3|congruence].
      * intros Hle. destruct (IH2 Hle) as [H3 H4]. split; [exact H3|congruence].
Qed.

(** C3.  [Stream::outputBufferReady] touches neither the streams nor
    the devices.  For a buffer without entry it changes nothing at all.
    For a buffer whose entry counts [n] it decrements the counter as an
    [unsigned int]; when the result is zero the entry is erased and
    [inputBufferReady] is emitted once for the buffer, otherwise the
    decremented counter is stored and nothing is emitted.  Counters
    that are all positive stay all positive, under this handler and
    along every run of requests and completions, and there the counter
    reaches zero exactly from 1.  From a live entry on, as long as the
    buffer is not queued again, at most one [inputBufferReady] is
    emitted for it however many completions arrive. *)
Theorem outputBufferReady_fan_in (buffer : FrameBuffer)
    (c : V4L2M2MConverter D) :
  let c' := Stream_outputBufferReady buffer c in
  streams_ c' = streams_ c /\ world c' = world c
  /\ (queue_ c !! buffer = None -> c' = c)
  /\ (forall n, queue_ c !! buffer = Some n ->
        (to_uint (n - 1) = 0 ->
           queue_ c' = delete buffer (queue_ c)
           /\ emitted c' = emitted c ++ [inputBufferReady buffer])
        /\ (to_uint (n - 1) <> 0 ->
           queue_ c' = <[buffer := to_uint (n - 1)]> (queue_ c)
           /\ emitted c' = emitted c)
        /\ (0 < n < UINT_MOD -> to_uint (n - 1) = n - 1))
  /\ (queue_wf c -> queue_wf c')
  /\ (forall evs,
        Z.of_nat (length (streams_ c)) < UINT_MOD -> Forall event_wf evs ->
        queue_wf c -> queue_wf (run evs c))
  /\ (forall n evs,
        queue_ c !! buffer = Some n -> 0 < n < UINT_MOD ->
        Forall (fun e => ~ requeues buffer e) evs ->
        (consumed buffer (emitted (run evs c))
         <= S (consumed buffer (emitted c)))%nat).
Proof.
  intros c'.
  assert (streams_ c' = streams_ c /\ world c' = world c) as [Hs Hw].
  { subst c'. unfold Stream_outputBufferReady.
    destruct (queue_ c !! buffer); [|auto]. destruct (_ =? _); auto. }
  split; [exact Hs|]. split; [exact Hw|]. split.
  { intros E. subst c'. unfold Stream_outputBufferReady. rewrite E. reflexivity. }
  split.
  { intros n E. subst c'. unfold Stream_outputBufferReady. rewrite E.
    destruct (Z.eqb_spec (to_uint (n - 1)) 0) as [Hz|Hz]; simpl.
    - split; [auto|]. split; [tauto|]. intros; apply to_uint_small; lia.
    - split; [tauto|]. split; [auto|]. intros; apply to_uint_small; lia. }
  split; [apply outputBufferReady_queue_wf|].
  split; [intros evs; apply run_queue_wf|].
  intros n evs Hn Hpos F.
  destruct (run_live buffer evs c n Hn Hpos F) as [H1 H2].
  destruct (Z.lt_ge_cases (Z.of_nat (done_count buffer evs)) n) as [Hlt|Hge].
  - destruct (H1 Hlt) as [_ ->]. lia.
  - destruct (H2 Hge) as [_ ->]. lia.
Qed.

(** C7, amended.  Take an accepted request for an input buffer that has
    no live entry, and any later run in which that buffer is not queued
    again.  The request has one output per stream, and
    [inputBufferReady] is emitted for the input buffer exactly when the
    run has delivered as many of its input-side completions as the
    request has outputs: not before, and never a second time.  Output
    completions neither hasten nor hold back the signal. *)
Theorem inputBufferReady_after_all_shares (input : FrameBuffer)
    (outputs : list (nat * FrameBuffer)) (c : V4L2M2MConverter D)
    (evs : list Event) :
  queue_ c !! input = None ->
  map_wf outputs ->
  Z.of_nat (length (streams_ c)) < UINT_MOD ->
  (queueBuffers input outputs c).1 = 0 ->
  Forall (fun e => ~ requeues input e) evs ->
  length outputs = length (streams_ c)
  /\ consumed input (emitted (run evs (queueBuffers input outputs c).2))
     = (consumed input (emitted c)
        + if decide (length outputs <= done_count input evs)%nat
          then 1 else 0)%nat.
Proof.
  intros Hfree Hwf Hsz Hret F.
  destruct (queueBuffers_registers _ _ _ Hfree Hwf Hsz Hret) as (Hlen & Hpos & Hq).
  split; [exact Hlen|].
  destruct (queueBuffers_frame input outputs c) as (_ & Hem & _ & _).
  assert (queue_ (queueBuffers input outputs c).2 !! input
          = Some (Z.of_nat (length outputs))) as Hlive
    by (rewrite Hq; apply lookup_insert_eq).
  destruct (run_live input evs _ _ Hlive ltac:(lia) F) as [H1 H2].
  rewrite <- Hem.
  destruct (decide (length outputs <= done_count input evs)%nat) as [Hle|Hgt].
  - destruct (H2 ltac:(lia)) as [_ ->]. lia.
  - destruct (H1 ltac:(lia)) as [_ ->]. lia.
Qed.

(** C10.  An input buffer is queued by an accepted request while it has
    no entry, some run follows in which it is not queued again, and it
    is then queued a second time while its entry is still live, in a
    request that passes validation and whose submissions all succeed.
    The second call returns 0 and leaves the pending table and the
    emitted signals exactly as they were: the live counter is neither
    raised nor reset.  Whatever run follows, until the buffer is queued
    yet again, at most one [inputBufferReady] has been emitted for the
    buffer since before the first of the two requests. *)
Theorem queueBuffers_live_entry (input : FrameBuffer)
    (outputs1 outputs2 : list (nat * FrameBuffer))
    (c0 : V4L2M2MConverter D) (evs1 evs2 : list Event) :
  let c1 := (queueBuffers input outputs1 c0).2 in
  let c2 := run evs1 c1 in
  let c3 := (queueBuffers input outputs2 c2).2 in
  queue_ c0 !! input = None ->
  map_wf outputs1 ->
  Z.of_nat (length (streams_ c0)) < UINT_MOD ->
  (queueBuffers input outputs1 c0).1 = 0 ->
  Forall (fun e => ~ requeues input e) evs1 ->
  is_Some (queue_ c2 !! input) ->
  validate (length (streams_ c2)) outputs2 = true ->
  0 <= (queue_loop (streams_ c2) input outputs2 (world c2)).1 ->
  Forall (fun e => ~ requeues input e) evs2 ->
  (queueBuffers input outputs2 c2).1 = 0
  /\ queue_ c3 = queue_ c2
  /\ emitted c3 = emitted c2
  /\ (consumed input (emitted (run evs2 c3))
      <= S (consumed input (emitted c0)))%nat.
Proof.
  intros c1 c2 c3 Hfree Hwf Hsz Hret F1 Hlive V Hok F2.
  destruct (queueBuffers_registers _ _ _ Hfree Hwf Hsz Hret) as (Hlen & Hpos & Hq).
  destruct (queueBuffers_frame input outputs1 c0) as (_ & Hem1 & _ & _).
  assert (queue_ c1 !! input = Some (Z.of_nat (length outputs1))) as Hlive1
    by (subst c1; rewrite Hq; apply lookup_insert_eq).
  destruct (run_live input evs1 c1 _ Hlive1 ltac:(lia) F1) as [H1 H2].
  fold c2 in H1, H2.
  destruct (Z.lt_ge_cases (Z.of_nat (done_count input evs1))
              (Z.of_nat (length outputs1))) as [Hlt|Hge].
  2:{ destruct (H2 Hge) as [Hnone _]. rewrite Hnone in Hlive.
      destruct Hlive as [? C]. discriminate C. }
  destruct (H1 Hlt) as [Hn Hc2].
  destruct (queueBuffers_frame input outputs2 c2) as (_ & Hem3 & _ & Hq3).
  fold c3 in Hem3, Hq3.
  split.
  { unfold queueBuffers. rewrite V. simpl.
    destruct (queue_loop _ _ _ _) as [r w]. simpl in Hok.
    assert ((r <? 0) = false) as -> by lia. reflexivity. }
  split; [exact (Hq3 Hlive)|]. split; [exact Hem3|].
  assert (queue_ c3 !! input
          = Some (Z.of_nat (length outputs1) - Z.of_nat (done_count input evs1)))
    as Hlive3 by (rewrite (Hq3 Hlive); exact Hn).
  destruct (run_live input evs2 c3 _ Hlive3 ltac:(lia) F2) as [G1 G2].
  assert (consumed input (emitted c3) = consumed input (emitted c0)) as Heq.
  { rewrite Hem3, Hc2. subst c1. rewrite Hem1. reflexivity. }
  destruct (Z.lt_ge_cases (Z.of_nat (done_count input evs2))
              (Z.of_nat (length outputs1) - Z.of_nat (done_count input evs1)))
    as [Hlt2|Hge2].
  - destruct (G1 Hlt2) as [_ ->]. lia.
  - destruct (G2 Hge2) as [_ ->]. lia.
Qed.

End Completion.

(** The last completion of buffer 100 erases its entry and emits the
    signal. *)
Lemma outputBufferReady_fan_in_witness :
  queue_ (Stream_outputBufferReady 100%N (half_done ideal tt))
  = delete 100%N (queue_ (half_done ideal tt))
  /\ emitted (Stream_outputBufferReady 100%N (half_done ideal tt))
     = emitted (half_done ideal tt) ++ [inputBufferReady 100%N].
Proof.
  destruct (outputBufferReady_fan_in (D := ideal) 100%N (half_done ideal tt))
    as (_ & _ & _ & H & _).
  destruct (H 1 eq_refl) as (H1 & _). apply H1. reflexivity.
Defined.

(** Both streams hand buffer 100 back before any output buffer is
    ready: the input-consumed signal is out, no output-ready signal is. *)
Lemma inputBufferReady_before_any_output :
  ~ consumed_after_outputs 100%N outs2 (converter2 ideal tt)
      [EvOutputBufferReady 0 100%N; EvOutputBufferReady 1 100%N].
Proof.
  intros H. specialize (H eq_refl).
  assert (emitted (run [EvOutputBufferReady 0 100%N; EvOutputBufferReady 1 100%N]
                     (queueBuffers 100%N outs2 (converter2 ideal tt)).2)
          = [inputBufferReady 100%N]) as E by (vm_compute; reflexivity).
  rewrite E in H.
  assert (outputBufferReady 200%N ∈ [inputBufferReady 100%N]) as C.
  { apply (H ltac:(constructor) (0%nat, 200%N)). constructor. }
  apply list_elem_of_singleton in C. discriminate C.
Qed.

(** Scenario A: stream 0 reports its output and then its share of the
    input, then stream 1 does; one input-consumed signal results. *)
Lemma inputBufferReady_after_all_shares_witness :
  consumed 100%N
    (emitted (run [EvCaptureBufferReady 0 200%N; EvOutputBufferReady 0 100%N;
                   EvCaptureBufferReady 1 300%N; EvOutputBufferReady 1 100%N]
                (queueBuffers 100%N outs2 (converter2 ideal tt)).2))
  = 1%nat.
Proof.
  refine (proj2 (inputBufferReady_after_all_shares (D := ideal) 100%N outs2
                   (converter2 ideal tt)
                   [EvCaptureBufferReady 0 200%N; EvOutputBufferReady 0 100%N;
                    EvCaptureBufferReady 1 300%N; EvOutputBufferReady 1 100%N]
                   _ _ _ _ _)).
  - reflexivity.
  - repeat constructor.
  - reflexivity.
  - reflexivity.
  - repeat constructor; simpl; tauto.
Defined.

(** Buffer 100 is queued, stream 0 hands it back, it is queued again,
    and then three more completions arrive: one signal in all. *)
Lemma queueBuffers_live_entry_witness :
  (queueBuffers 100%N outs2 (half_done ideal tt)).1 = 0
  /\ queue_ (queueBuffers 100%N outs2 (half_done ideal tt)).2
     = queue_ (half_done ideal tt)
  /\ emitted (queueBuffers 100%N outs2 (half_done ideal tt)).2
     = emitted (half_done ideal tt)
  /\ (consumed 100%N
        (emitted (run [EvOutputBufferReady 1 100%N; EvOutputBufferReady 0 100%N;
                       EvOutputBufferReady 1 100%N]
                    (queueBuffers 100%N outs2 (half_done ideal tt)).2))
      <= 1)%nat.
Proof.
  refine (queueBuffers_live_entry (D := ideal) 100%N outs2 outs2
            (converter2 ideal tt) [EvOutputBufferReady 0 100%N]
            [EvOutputBufferReady 1 100%N; EvOutputBufferReady 0 100%N;
             EvOutputBufferReady 1 100%N] _ _ _ _ _ _ _ _ _).
  - reflexivity.
  - repeat constructor.
  - reflexivity.
  - reflexivity.
  - repeat constructor; simpl; tauto.
  - exists 1. reflexivity.
  - reflexivity.
  - vm_compute. discriminate.
  - repeat constructor; simpl; tauto.
Defined.

(** Scenario A in full: the signals in the order they are emitted. *)
Example scenario_A :
  emitted (run [EvQueueBuffers 100%N outs2;
                EvCaptureBufferReady 0 200%N; EvOutputBufferReady 0 100%N;
                EvCaptureBufferReady 1 300%N; EvOutputBufferReady 1 100%N]
             (converter2 ideal tt))
  = [outputBufferReady 200%N; outputBufferReady 300%N; inputBufferReady 100%N].
Proof. reflexivity. Qed.

(** A completion for a buffer that was never queued is dropped. *)
Example stray_completion :
  Stream_outputBufferReady 7%N (converter2 ideal tt) = converter2 ideal tt.
Proof. reflexivity. Qed.

(** ** V4L2M2MConverter::start *)

Section Start.

Context {D : Device}.

Lemma Stream_start_spec st (w w' : World D) ret :
  Stream_start st w = (ret, w') ->
  ((ret <? 0) = true \/ ret = 0)
  /\ ((ret <? 0) = false -> calls w' = calls w ++ start_calls st).
Proof.
  unfold Stream_start, start_calls.
  destruct (hw (HwImportBuffers _ Output _) w) as [r1 w1] eqn:E1.
  destruct (r1 <? 0) eqn:L1.
  { intros H; inversion H; subst. split; [auto|congruence]. }
  destruct (hw (HwImportBuffers _ Capture _) w1) as [r2 w2] eqn:E2.
  destruct (r2 <? 0) eqn:L2.
  { intros H; inversion H; subst. split; [auto|congruence]. }
  destruct (hw (HwStreamOn _ Output) w2) as [r3 w3] eqn:E3.
  destruct (r3 <? 0) eqn:L3.
  { intros H; inversion H; subst. split; [auto|congruence]. }
  destruct (hw (HwStreamOn _ Capture) w3) as [r4 w4] eqn:E4.
  destruct (r4 <? 0) eqn:L4.
  { intros H; inversion H; subst. split; [auto|congruence]. }
  intros H; inversion H; subst. split; [auto|]. intros _.
  rewrite (hw_calls_eq _ _ _ _ E4), (hw_calls_eq _ _ _ _ E3),
    (hw_calls_eq _ _ _ _ E2), (hw_calls_eq _ _ _ _ E1), <- !app_assoc.
  reflexivity.
Qed.

Lemma start_loop_spec todo :
  forall (c c' : V4L2M2MConverter D) ret,
  start_loop todo c = (ret, c') ->
  streams_ c' = streams_ c /\ queue_ c' = queue_ c /\ emitted c' = emitted c
  /\ ((ret <? 0) = false ->
      ret = 0
      /\ calls (world c') = calls (world c) ++ flat_map start_calls todo)
  /\ ((ret <? 0) = true ->
      exists done st rest ck,
        todo = done ++ st :: rest
        /\ start_loop done c = (0, ck)
        /\ calls (world ck) = calls (world c) ++ flat_map start_calls done
        /\ (Stream_start st (world ck)).1 = ret
        /\ calls (world c')
           = calls (Stream_start st (world ck)).2
             ++ flat_map stop_calls (reverse (index_ <$> streams_ c))).
Proof.
  induction todo as [|st rest IH]; intros c c' ret E; simpl in E.
  - inversion E; subst. repeat split; try (intros C; discriminate C).
    simpl. rewrite app_nil_r. reflexivity.
  - destruct (Stream_start st (world c)) as [r w] eqn:E1.
    destruct (Stream_start_spec _ _ _ _ E1) as [Hsign Hlog].
    destruct (r <? 0) eqn:L.
    + inversion E; subst. split; [reflexivity|]. split; [reflexivity|].
      split; [reflexivity|]. split; [congruence|]. intros _.
      exists [], st, rest, c. simpl. rewrite app_nil_r, E1. simpl.
      split; [reflexivity|]. split; [reflexivity|]. split; [reflexivity|].
      split; [reflexivity|].
      rewrite stop_fold_calls, fmap_reverse. reflexivity.
    + destruct (IH _ _ _ E) as (H1 & H2 & H3 & Hok & Hko). simpl in *.
      split; [exact H1|]. split; [exact H2|]. split; [exact H3|]. split.
      * intros Hr. destruct (Hok Hr) as [-> Hc]. split; [reflexivity|].
        rewrite Hc, (Hlog eq_refl), <- app_assoc. reflexivity.
      * intros Hr.
        destruct (Hko Hr) as (done & st' & rest' & ck & -> & A1 & A2 & A3 & A4).
        exists (st :: done), st', rest', ck. simpl. rewrite E1, L.
        split; [reflexivity|]. split; [exact A1|]. split.
        { rewrite A2, (Hlog eq_refl), <- app_assoc. reflexivity. }
        split; [exact A3|exact A4].
Qed.

(** X1.  [start] is all or nothing over the streams.  It changes
    neither the streams nor the pending table nor the emitted signals.
    Either it returns 0 and the devices have received, stream after
    stream in the order of [streams_], the four calls of a successful
    [Stream::start] and nothing else.  Or it returns a negative code:
    then the streams before some stream were started in full, that
    stream's own [Stream::start] failed with the code returned, and
    right after it every stream of [streams_], started or not, received
    the calls of [Stream::stop], the last stream first. *)
Theorem start_all_or_nothing (c : V4L2M2MConverter D) :
  let ret := (start c).1 in
  let c' := (start c).2 in
  streams_ c' = streams_ c /\ queue_ c' = queue_ c /\ emitted c' = emitted c
  /\ ((ret = 0
       /\ calls (world c')
          = calls (world c) ++ flat_map start_calls (streams_ c))
      \/ (ret < 0
          /\ exists done st rest ck,
               streams_ c = done ++ st :: rest
               /\ start_loop done c = (0, ck)
               /\ calls (world ck)
                  = calls (world c) ++ flat_map start_calls done
               /\ (Stream_start st (world ck)).1 = ret
               /\ calls (world c')
                  = calls (Stream_start st (world ck)).2
                    ++ flat_map stop_calls (reverse (index_ <$> streams_ c)))).
Proof.
  intros ret c'. subst ret c'. unfold start.
  destruct (start_loop (streams_ c) c) as [r c1] eqn:E. simpl.
  destruct (start_loop_spec _ _ _ _ E) as (H1 & H2 & H3 & Hok & Hko).
  split; [exact H1|]. split; [exact H2|]. split; [exact H3|].
  destruct (r <? 0) eqn:L.
  - right. split; [lia|]. apply Hko. reflexivity.
  - left. apply Hok. reflexivity.
Qed.

End Start.

(** With no memory on the input side, starting two streams fails on
    stream 0 and both streams are stopped, stream 1 first. *)
Lemma start_all_or_nothing_witness :
  (start (converter2 no_input_memory tt)).1 = - ENOMEM
  /\ calls (world (start (converter2 no_input_memory tt)).2)
     = HwImportBuffers 0 Output 4 :: stop_calls 1 ++ stop_calls 0.
Proof.
  destruct (start_all_or_nothing (converter2 no_input_memory tt))
    as (_ & _ & _ & [(H & _)|_]).
  - vm_compute in H. discriminate H.
  - split; reflexivity.
Defined.

(** ** The requests queueBuffers accepts *)

Section Validation.

Context {D : Device}.

Lemma sorted_NoDup (l : list nat) : StronglySorted lt l -> NoDup l.
Proof.
  induction 1 as [|x l _ IH Hx]; constructor; [|exact IH].
  intros Hin. rewrite Forall_forall in Hx. specialize (Hx _ Hin). lia.
Qed.

(** A strictly increasing list that fits an interval of its own length
    fills the interval. *)
Lemma sorted_fills_interval (l : list nat) :
  forall a, StronglySorted lt l ->
  Forall (fun x => a <= x < a + length l)%nat l ->
  l = seq a (length l).
Proof.
  induction l as [|x l IH]; intros a Hs Hr; [reflexivity|].
  apply StronglySorted_inv in Hs. destruct Hs as [Hs Hx].
  apply Forall_cons in Hr. destruct Hr as [Hxr Hr]. simpl in Hxr, Hr.
  assert (x = a) as ->.
  { assert (length l <= length (seq (S x) (a + length l - x)))%nat as Hlen.
    { apply submseteq_length, NoDup_submseteq; [apply sorted_NoDup; exact Hs|].
      intros y Hy. apply elem_of_seq.
      rewrite Forall_forall in Hx, Hr.
      specialize (Hx _ Hy). specialize (Hr _ Hy). lia. }
    rewrite length_seq in Hlen. lia. }
  simpl. f_equal. apply IH; [exact Hs|].
  rewrite Forall_forall in Hx, Hr. apply Forall_forall. intros y Hy.
  specialize (Hx _ Hy). specialize (Hr _ Hy). lia.
Qed.

Lemma size_length_NoDup (l : list N) :
  base.size (list_to_set l : gset N) = length l -> NoDup l.
Proof.
  induction l as [|x l IH]; intros H; [constructor|].
  rewrite list_to_set_cons, size_union_alt, size_singleton in H. simpl in H.
  pose proof (size_list_to_set_le l) as Hle.
  assert (base.size ((list_to_set l : gset N) ∖ {[x]})
          <= base.size (list_to_set l : gset N))%nat as Hd
    by (apply subseteq_size, subseteq_difference_l; reflexivity).
  apply NoDup_cons. split; [|apply IH; lia].
  intros Hin.
  assert ((list_to_set l : gset N) ∖ {[x]} ⊂ list_to_set l) as Hsub.
  { split; [apply subseteq_difference_l; reflexivity|].
    intros Hall. assert (x ∈ (list_to_set l : gset N)) as Hx
      by (apply elem_of_list_to_set; exact Hin).
    specialize (Hall _ Hx). apply elem_of_difference in Hall.
    destruct Hall as [_ Hn]. apply Hn. apply elem_of_singleton. reflexivity. }
  apply subset_size in Hsub. lia.
Qed.

(** X2.  What the validation of [queueBuffers] lets through.  For an
    output map (entries in increasing key order) and [nstreams]
    configured streams, the request passes validation exactly when
    there is at least one stream, the keys of the map are 0, 1, ...,
    [nstreams - 1] with none missing, no output buffer is null, and no
    output buffer occurs twice. *)
Theorem validate_one_buffer_per_stream (nstreams : nat)
    (outputs : list (nat * FrameBuffer)) :
  map_wf outputs ->
  (validate nstreams outputs = true <->
   (0 < nstreams)%nat
   /\ outputs.*1 = seq 0 nstreams
   /\ Forall (fun b => b <> nullptr) outputs.*2
   /\ NoDup outputs.*2).
Proof.
  intros Hwf. split.
  - intros V. pose proof (validate_length _ _ V Hwf) as Hlen.
    apply validate_true in V. destruct V as (Hne & F & Hs).
    split; [destruct outputs; [congruence|simpl in Hlen; lia]|].
    split; [|split].
    + rewrite <- Hlen, <- (length_fmap fst outputs).
      apply sorted_fills_interval; [exact Hwf|].
      rewrite length_fmap, Hlen. apply Forall_fmap.
      eapply Forall_impl; [exact F|]. intros e [_ He]. simpl. lia.
    + apply Forall_fmap. eapply Forall_impl; [exact F|].
      intros e [He _]. exact He.
    + apply size_length_NoDup. unfold distinct_buffers in Hs.
      rewrite Hs, length_fmap. symmetry. exact Hlen.
  - intros (Hpos & Hkeys & Hnn & Hnd). apply validate_true.
    assert (length outputs = nstreams) as Hlen.
    { rewrite <- (length_fmap fst outputs), Hkeys. apply length_seq. }
    split; [intros ->; simpl in Hlen; lia|]. split.
    + apply Forall_forall. intros e He. split.
      * rewrite Forall_forall in Hnn. apply Hnn.
        apply list_elem_of_fmap. exists e. auto.
      * assert (e.1 ∈ seq 0 nstreams) as Hin.
        { rewrite <- Hkeys. apply list_elem_of_fmap. exists e. auto. }
        apply elem_of_seq in Hin. lia.
    + unfold distinct_buffers. rewrite size_list_to_set by exact Hnd.
      rewrite length_fmap. exact Hlen.
Qed.

Lemma validate_no_streams (outputs : list (nat * FrameBuffer)) :
  validate 0 outputs = false.
Proof.
  destruct (validate 0 outputs) eqn:V; [exfalso|reflexivity].
  apply validate_true in V. destruct V as (Hne & F & _).
  destruct outputs as [|e rest]; [congruence|].
  apply Forall_cons in F. destruct F as [[_ He] _]. lia.
Qed.

Lemma configure_no_streams inputCfg outputCfgs (c : V4L2M2MConverter D) :
  (configure inputCfg outputCfgs c).1 < 0 \/ outputCfgs = [] ->
  streams_ (configure inputCfg outputCfgs c).2 = [].
Proof.
  unfold configure. intros [H| ->].
  - destruct (configure_loop _ _ _ _ _) as [[ret streams] w].
    destruct (ret <? 0); simpl in *; [reflexivity|lia].
  - reflexivity.
Qed.

(** X3.  A converter whose [configure] failed, or was given no output
    configuration at all, holds no stream, and every request made of it
    is refused with [-EINVAL] without a call to any device, whatever
    input buffer and output map the request carries. *)
Theorem unconfigured_rejects_requests (inputCfg : StreamConfiguration)
    (outputCfgs : list StreamConfiguration) (c : V4L2M2MConverter D)
    (input : FrameBuffer) (outputs : list (nat * FrameBuffer)) :
  (configure inputCfg outputCfgs c).1 < 0 \/ outputCfgs = [] ->
  queueBuffers input outputs (configure inputCfg outputCfgs c).2
  = (- EINVAL, (configure inputCfg outputCfgs c).2).
Proof.
  intros H. unfold queueBuffers.
  rewrite (configure_no_streams _ _ _ H). simpl.
  rewrite validate_no_streams. reflexivity.
Qed.

End Validation.

Lemma validate_one_buffer_per_stream_witness :
  validate 2 outs2 = true.
Proof.
  apply (validate_one_buffer_per_stream 2 outs2).
  - repeat constructor.
  - split; [lia|]. split; [reflexivity|]. split.
    + repeat constructor; discriminate.
    + repeat constructor; intros H; repeat (apply elem_of_cons in H;
        destruct H as [H|H]; [discriminate H|]); apply elem_of_nil in H; exact H.
Defined.

(** Stream 1 cannot be opened: [configure] fails, and the request that
    would have been fine for two streams is refused. *)
Lemma unconfigured_rejects_requests_witness :
  (queueBuffers 100%N outs2
     (configure cfg_in [cfg_out0; cfg_out1] (converter0 second_unavailable tt)).2).1
  = - EINVAL.
Proof.
  rewrite (unconfigured_rejects_requests (D := second_unavailable) cfg_in
             [cfg_out0; cfg_out1] (converter0 second_unavailable tt) 100%N outs2).
  - reflexivity.
  - left. vm_compute. reflexivity.
Defined.

(** ** Runs of requests and completions *)

Section Runs.

Context {D : Device}.

Lemma request_count_cons b e evs :
  request_count b (e :: evs)
  = ((if decide (requeues b e) then 1 else 0) + request_count b evs)%nat.
Proof.
  unfold request_count. destruct (decide (requeues b e)) as [H|H].
  - rewrite filter_cons_True by exact H. reflexivity.
  - rewrite filter_cons_False by exact H. reflexivity.
Qed.

(** One event raises the signals emitted for [b] plus its live entry by
    at most the one request the event may be. *)
Lemma dispatch_account b e (c : V4L2M2MConverter D) :
  (consumed b (emitted (dispatch e c)) + live b (dispatch e c)
   <= consumed b (emitted c) + live b c
      + if decide (requeues b e) then 1 else 0)%nat.
Proof.
  unfold live. destruct e as [input outputs|i buffer|i buffer]; simpl.
  - destruct (queueBuffers_frame input outputs c) as (_ & -> & Hother & _).
    destruct (decide (input = b)) as [->|Hne].
    + destruct (queue_ _ !! b), (queue_ c !! b); lia.
    + rewrite Hother by congruence. lia.
  - unfold Stream_outputBufferReady.
    destruct (queue_ c !! buffer) as [m|] eqn:E; [|lia].
    destruct (decide (buffer = b)) as [->|Hne].
    + rewrite E. destruct (_ =? _); simpl.
      * rewrite lookup_delete_eq, consumed_snoc, decide_True by reflexivity. lia.
      * rewrite lookup_insert_eq. lia.
    + destruct (_ =? _); simpl.
      * rewrite lookup_delete_ne by congruence.
        rewrite consumed_snoc, decide_False by congruence. lia.
      * rewrite lookup_insert_ne by congruence. lia.
  - rewrite consumed_snoc, decide_False by discriminate. lia.
Qed.

(** X4.  Along every run, whatever its requests and completions and
    whatever state it starts from, the [inputBufferReady] signals
    emitted for a buffer during the run, plus one if the buffer has a
    live entry at the end, are at most the requests the run made for
    the buffer, plus one if it had a live entry at the start.  A buffer
    is never reported consumed more often than it was queued. *)
Theorem consumed_bounded_by_requests (b : FrameBuffer) (evs : list Event)
    (c : V4L2M2MConverter D) :
  (consumed b (emitted (run evs c)) + live b (run evs c)
   <= consumed b (emitted c) + live b c + request_count b evs)%nat.
Proof.
  revert c. induction evs as [|e evs IH]; intros c.
  - unfold request_count. simpl. lia.
  - rewrite run_cons, request_count_cons.
    pose proof (IH (dispatch e c)) as H1.
    pose proof (dispatch_account b e c) as H2. lia.
Qed.

Lemma forwarded_snoc l s :
  forwarded (l ++ [s])
  = forwarded l ++ match s with
                   | outputBufferReady b => [b]
                   | inputBufferReady _ => []
                   end.
Proof. unfold forwarded. rewrite omap_app. destruct s; reflexivity. Qed.

Lemma dispatch_forwarded e (c : V4L2M2MConverter D) :
  forwarded (emitted (dispatch e c)) = forwarded (emitted c) ++ captured [e].
Proof.
  destruct e as [input outputs|i buffer|i buffer]; simpl.
  - destruct (queueBuffers_frame input outputs c) as (_ & -> & _ & _).
    rewrite app_nil_r. reflexivity.
  - unfold Stream_outputBufferReady.
    destruct (queue_ c !! buffer); [|rewrite app_nil_r; reflexivity].
    destruct (_ =? _); simpl; [rewrite forwarded_snoc|]; rewrite app_nil_r;
      reflexivity.
  - rewrite forwarded_snoc. reflexivity.
Qed.

(** X5.  Output completions are forwarded one for one and in order:
    along every run the [outputBufferReady] signals emitted are, in
    order of emission, exactly the output buffers the devices reported
    ready, in order of arrival.  None is dropped, held back, repeated
    or reordered, whatever the pending table holds. *)
Theorem outputs_forwarded_in_order (evs : list Event)
    (c : V4L2M2MConverter D) :
  forwarded (emitted (run evs c)) = forwarded (emitted c) ++ captured evs.
Proof.
  revert c. induction evs as [|e evs IH]; intros c.
  - simpl. rewrite app_nil_r. reflexivity.
  - rewrite run_cons, IH, dispatch_forwarded, <- app_assoc.
    f_equal. unfold captured. rewrite <- omap_app. reflexivity.
Qed.

Lemma dispatch_queue_bounded e (c : V4L2M2MConverter D) :
  Z.of_nat (length (streams_ c)) < UINT_MOD -> event_wf e ->
  queue_bounded c -> queue_bounded (dispatch e c).
Proof.
  intros Hsz He Hq b n. rewrite dispatch_streams.
  destruct e as [input outputs|i buffer|i buffer]; simpl; [| |apply Hq].
  - simpl in He.
    destruct (queue_ c !! input) as [m|] eqn:E.
    + destruct (queueBuffers_frame input outputs c) as (_ & _ & _ & H).
      rewrite H by eauto. apply Hq.
    + destruct (decide ((queueBuffers input outputs c).1 = 0)) as [Hr|Hr].
      * destruct (queueBuffers_registers _ _ _ E He Hsz Hr) as (Hlen & Hpos & ->).
        destruct (decide (b = input)) as [->|Hne].
        -- rewrite lookup_insert_eq. intros H; inversion H; subst. lia.
        -- rewrite lookup_insert_ne by congruence. apply Hq.
      * revert Hr. unfold queueBuffers.
        destruct (validate _ _); simpl; [|intros _; apply Hq].
        destruct (queue_loop _ _ _ _) as [r w].
        destruct (r <? 0); simpl; [intros _; apply Hq|congruence].
  - unfold Stream_outputBufferReady.
    destruct (queue_ c !! buffer) as [m|] eqn:E; [|apply Hq].
    pose proof (Hq _ _ E) as Hm.
    rewrite to_uint_small by lia.
    destruct (Z.eqb_spec (m - 1) 0) as [Hz|Hz]; simpl.
    + destruct (decide (b = buffer)) as [->|Hne].
      * rewrite lookup_delete_eq. intros C; discriminate C.
      * rewrite lookup_delete_ne by congruence. apply Hq.
    + destruct (decide (b = buffer)) as [->|Hne].
      * rewrite lookup_insert_eq. intros H; inversion H; subst. lia.
      * rewrite lookup_insert_ne by congruence. apply Hq.
Qed.

(** X7.  With fewer than 2^32 streams and output maps that are maps, a
    pending table in which every counter lies between 1 and the number
    of streams stays so along every run: a request registers its input
    with exactly the number of streams, a completion only counts down,
    and the entry is gone once the count would be 0.  So however the
    completions of different streams interleave, no entry ever asks for
    more completions than there are streams to deliver them. *)
Theorem counters_bounded_by_streams (evs : list Event)
    (c : V4L2M2MConverter D) :
  Z.of_nat (length (streams_ c)) < UINT_MOD ->
  Forall event_wf evs ->
  queue_bounded c ->
  queue_bounded (run evs c)
  /\ streams_ (run evs c) = streams_ c.
Proof.
  revert c. induction evs as [|e evs IH]; intros c Hsz F Hq; [auto|].
  apply Forall_cons in F. destruct F as [He F]. rewrite run_cons.
  destruct (IH (dispatch e c)) as [H1 H2].
  - rewrite dispatch_streams. exact Hsz.
  - exact F.
  - apply dispatch_queue_bounded; assumption.
  - split; [exact H1|]. rewrite H2. apply dispatch_streams.
Qed.

Lemma run_all_done b evs :
  forall (c : V4L2M2MConverter D) n,
  queue_ c !! b = Some n -> 0 < n < UINT_MOD ->
  Forall (is_done b) evs -> Z.of_nat (length evs) = n ->
  queue_ (run evs c) = delete b (queue_ c)
  /\ emitted (run evs c) = emitted c ++ [inputBufferReady b]
  /\ streams_ (run evs c) = streams_ c
  /\ world (run evs c) = world c.
Proof.
  induction evs as [|e evs IH]; intros c n Hlive Hn F Hlen.
  - simpl in Hlen. lia.
  - apply Forall_cons in F. destruct F as [He F]. rewrite run_cons.
    destruct e as [input outputs|i buffer|i buffer]; simpl in He; try tauto.
    subst buffer. simpl. unfold Stream_outputBufferReady.
    rewrite Hlive, to_uint_small by lia.
    destruct (Z.eqb_spec (n - 1) 0) as [Hz|Hz].
    + destruct evs as [|e' evs']; [|simpl in Hlen; lia]. simpl. auto.
    + edestruct (IH (set_queue (<[b := n - 1]> (queue_ c)) c) (n - 1))
        as (H1 & H2 & H3 & H4).
      * simpl. apply lookup_insert_eq.
      * lia.
      * exact F.
      * simpl in Hlen. lia.
      * simpl in *. rewrite H1, H2, H3, H4, delete_insert_eq. auto.
Qed.

(** X8.  Queue and complete is a round trip on the pending table.  When
    an accepted request for an input buffer without live entry is
    followed by one completion of that buffer per output of the
    request, from whichever streams, the pending table is back to what
    it was before the request, the streams and devices are as the
    request left them, and the signals emitted are those from before
    the request followed by a single [inputBufferReady] for the
    buffer. *)
Theorem queue_then_complete_round_trip (input : FrameBuffer)
    (outputs : list (nat * FrameBuffer)) (c : V4L2M2MConverter D)
    (evs : list Event) :
  queue_ c !! input = None ->
  map_wf outputs ->
  Z.of_nat (length (streams_ c)) < UINT_MOD ->
  (queueBuffers input outputs c).1 = 0 ->
  Forall (is_done input) evs ->
  length evs = length outputs ->
  queue_ (run evs (queueBuffers input outputs c).2) = queue_ c
  /\ emitted (run evs (queueBuffers input outputs c).2)
     = emitted c ++ [inputBufferReady input]
  /\ streams_ (run evs (queueBuffers input outputs c).2) = streams_ c
  /\ world (run evs (queueBuffers input outputs c).2)
     = world (queueBuffers input outputs c).2.
Proof.
  intros Hfree Hwf Hsz Hret F Hlen.
  destruct (queueBuffers_registers _ _ _ Hfree Hwf Hsz Hret) as (Hn & Hpos & Hq).
  destruct (queueBuffers_frame input outputs c) as (Hs & Hem & _ & _).
  destruct (run_all_done input evs (queueBuffers input outputs c).2
              (Z.of_nat (length outputs))) as (H1 & H2 & H3 & H4).
  - rewrite Hq. apply lookup_insert_eq.
  - lia.
  - exact F.
  - lia.
  - rewrite H1, H2, H3, Hq, Hem, Hs, delete_insert_eq, delete_id by exact Hfree.
    auto.
Qed.

Lemma queueBuffers_failed_table input outputs (c : V4L2M2MConverter D) :
  (queueBuffers input outputs c).1 <> 0 ->
  queue_ (queueBuffers input outputs c).2 = queue_ c.
Proof.
  unfold queueBuffers. destruct (validate _ _); simpl; [|reflexivity].
  destruct (queue_loop _ _ _ _) as [r w].
  destruct (r <? 0); simpl; [reflexivity|congruence].
Qed.

(** X9.  A request that fails registers nothing, even when some stream
    had already taken the buffers.  If [queueBuffers] returns a code
    other than 0 for an input buffer without live entry, then in every
    later run in which the buffer is not queued again no
    [inputBufferReady] is emitted for it: the completions that arrive
    from streams which did take the buffer find no entry and are
    dropped. *)
Theorem failed_request_never_consumed (input : FrameBuffer)
    (outputs : list (nat * FrameBuffer)) (c : V4L2M2MConverter D)
    (evs : list Event) :
  queue_ c !! input = None ->
  (queueBuffers input outputs c).1 <> 0 ->
  Forall (fun e => ~ requeues input e) evs ->
  consumed input (emitted (run evs (queueBuffers input outputs c).2))
  = consumed input (emitted c)
  /\ queue_ (run evs (queueBuffers input outputs c).2) !! input = None.
Proof.
  intros Hfree Hret F.
  destruct (queueBuffers_frame input outputs c) as (_ & Hem & _ & _).
  destruct (run_absent input evs (queueBuffers input outputs c).2) as [H1 H2].
  - rewrite (queueBuffers_failed_table _ _ _ Hret). exact Hfree.
  - exact F.
  - split; [rewrite H2, Hem; reflexivity|exact H1].
Qed.

End Runs.

Lemma counters_bounded_by_streams_witness :
  queue_bounded
    (run [EvQueueBuffers 100%N outs2; EvOutputBufferReady 0 100%N;
          EvQueueBuffers 101%N outs2]
       (converter2 ideal tt)).
Proof.
  apply (counters_bounded_by_streams (D := ideal)
           [EvQueueBuffers 100%N outs2; EvOutputBufferReady 0 100%N;
            EvQueueBuffers 101%N outs2]
           (converter2 ideal tt)).
  - reflexivity.
  - repeat constructor.
  - intros b n H. unfold converter2 in H. cbn [queue_] in H.
    rewrite lookup_empty in H. discriminate H.
Defined.

Lemma queue_then_complete_round_trip_witness :
  queue_ (run [EvOutputBufferReady 1 100%N; EvOutputBufferReady 0 100%N]
            (queueBuffers 100%N outs2 (converter2 ideal tt)).2)
  = ∅.
Proof.
  apply (queue_then_complete_round_trip (D := ideal) 100%N outs2
           (converter2 ideal tt)
           [EvOutputBufferReady 1 100%N; EvOutputBufferReady 0 100%N]).
  - reflexivity.
  - repeat constructor.
  - reflexivity.
  - reflexivity.
  - repeat constructor.
  - reflexivity.
Defined.

(** Stream 0 takes buffers 100 and 200, stream 1 refuses buffer 300;
    when the two streams later hand buffer 100 back, nothing is
    signalled. *)
Lemma failed_request_never_consumed_witness :
  consumed 100%N
    (emitted (run [EvOutputBufferReady 0 100%N; EvOutputBufferReady 1 100%N]
                (queueBuffers 100%N outs2 (converter2 second_refuses tt)).2))
  = 0%nat.
Proof.
  apply (failed_request_never_consumed (D := second_refuses) 100%N outs2
           (converter2 second_refuses tt)
           [EvOutputBufferReady 0 100%N; EvOutputBufferReady 1 100%N]).
  - reflexivity.
  - vm_compute. discriminate.
  - repeat constructor; simpl; tauto.
Defined.

(** ** configure, then start *)

Section Lifecycle.

Context {D : Device}.

Lemma Stream_configure_success st inputCfg outputCfg (w w' : World D) ret st' :
  Stream_configure st inputCfg outputCfg w = (ret, st', w') ->
  (ret <? 0) = false ->
  calls w'
  = calls w
    ++ [HwSetFormat (index_ st) Output
          (input_request (toV4L2PixelFormat D (pixelFormat inputCfg)) inputCfg);
        HwSetFormat (index_ st) Capture
          (output_request (toV4L2PixelFormat D (pixelFormat outputCfg)) outputCfg)].
Proof.
  unfold Stream_configure, setFormat.
  destruct (hw (HwSetFormat _ Output _) w) as [r1 w1] eqn:E1.
  destruct (r1 <? 0) eqn:L1.
  { intros H; inversion H; subst. congruence. }
  destruct (_ || _).
  { intros H; inversion H; subst. intros C; discriminate C. }
  destruct (hw (HwSetFormat _ Capture _) w1) as [r2 w2] eqn:E2.
  destruct (r2 <? 0) eqn:L2.
  { intros H; inversion H; subst. congruence. }
  destruct (_ || _).
  { intros H; inversion H; subst. intros C; discriminate C. }
  intros H _; inversion H; subst.
  rewrite (hw_calls_eq _ _ _ _ E2), (hw_calls_eq _ _ _ _ E1), <- app_assoc.
  reflexivity.
Qed.

Lemma configure_loop_success inputCfg outputCfgs :
  forall i streams (w w' : World D) ret streams',
  configure_loop inputCfg outputCfgs i streams w = (ret, streams', w') ->
  (ret <? 0) = false ->
  streams' = streams ++ configured_streams inputCfg i outputCfgs
  /\ calls w' = calls w ++ setup_log D inputCfg i outputCfgs.
Proof.
  induction outputCfgs as [|cfg rest IH]; intros i streams w w' ret streams' E L;
    simpl in E.
  - inversion E; subst. simpl. rewrite !app_nil_r. auto.
  - unfold Stream_new in E.
    destruct (hw (HwOpen i) w) as [r0 w1] eqn:E0. simpl in E.
    destruct (r0 <? 0) eqn:L0; simpl in E.
    { inversion E; subst. discriminate L. }
    destruct (Stream_configure (mkStream i true 0 0) inputCfg cfg w1)
      as [[r st1] w2] eqn:E1.
    destruct (Stream_configure_spec _ _ _ _ _ _ _ E1) as [_ Hok].
    destruct (r <? 0) eqn:Lr.
    { inversion E; subst. congruence. }
    destruct (Hok eq_refl) as [-> ->]. simpl in E.
    destruct (IH _ _ _ _ _ _ E L) as [-> ->].
    rewrite (Stream_configure_success _ _ _ _ _ _ _ E1 eq_refl). simpl.
    rewrite (hw_calls_eq _ _ _ _ E0), <- !app_assoc. auto.
Qed.

(** X10.  What a successful [configure] does, in full.  It leaves in
    [streams_] one valid stream per output configuration, in request
    order and numbered from 0, each carrying the buffer count of the
    input configuration and that of its own output configuration; and
    the devices have received, for each stream in that order, an open,
    then the input-side format built from the one input configuration,
    then the output-side format built from the stream's own output
    configuration: three calls per stream and no other. *)
Theorem configure_success_calls (inputCfg : StreamConfiguration)
    (outputCfgs : list StreamConfiguration) (c : V4L2M2MConverter D) :
  (configure inputCfg outputCfgs c).1 = 0 ->
  streams_ (configure inputCfg outputCfgs c).2
  = configured_streams inputCfg 0 outputCfgs
  /\ calls (world (configure inputCfg outputCfgs c).2)
     = calls (world c) ++ setup_log D inputCfg 0 outputCfgs.
Proof.
  unfold configure.
  destruct (configure_loop inputCfg outputCfgs 0 [] (world c))
    as [[ret streams] w] eqn:E.
  destruct (ret <? 0) eqn:L; simpl; [intros ->; discriminate L|].
  intros _. destruct (configure_loop_success _ _ _ _ _ _ _ _ E L) as [-> ->].
  auto.
Qed.

Lemma start_calls_configured inputCfg outputCfgs :
  forall i,
  flat_map start_calls (configured_streams inputCfg i outputCfgs)
  = start_log inputCfg i outputCfgs.
Proof.
  induction outputCfgs as [|cfg rest IH]; intros i; [reflexivity|].
  simpl. rewrite IH. reflexivity.
Qed.

(** X11.  The buffer counts given to [configure] are the ones [start]
    imports.  When [configure] succeeds and the [start] that follows
    succeeds, the devices have received from [start], for each stream
    in order, an import of as many input-side buffers as the input
    configuration counts, an import of as many output-side buffers as
    the stream's own output configuration counts, then stream-on for
    the input side and stream-on for the output side. *)
Theorem configure_then_start (inputCfg : StreamConfiguration)
    (outputCfgs : list StreamConfiguration) (c : V4L2M2MConverter D) :
  (configure inputCfg outputCfgs c).1 = 0 ->
  (start (configure inputCfg outputCfgs c).2).1 = 0 ->
  calls (world (start (configure inputCfg outputCfgs c).2).2)
  = calls (world (configure inputCfg outputCfgs c).2)
    ++ start_log inputCfg 0 outputCfgs.
Proof.
  intros Hc Hs.
  assert (streams_ (configure inputCfg outputCfgs c).2
          = configured_streams inputCfg 0 outputCfgs) as Hstreams.
  { revert Hc. unfold configure.
    destruct (configure_loop inputCfg outputCfgs 0 [] (world c))
      as [[ret streams] w] eqn:E.
    destruct (ret <? 0) eqn:L; simpl; [intros ->; discriminate L|].
    intros _. destruct (configure_loop_success _ _ _ _ _ _ _ _ E L) as [-> _].
    reflexivity. }
  revert Hs. unfold start.
  destruct (start_loop _ _) as [r c1] eqn:E. simpl. intros ->.
  destruct (start_loop_spec _ _ _ _ E) as (_ & _ & _ & Hok & _).
  destruct (Hok eq_refl) as [_ ->].
  rewrite Hstreams, start_calls_configured. reflexivity.
Qed.

(** X12.  After a successful [configure] for K outputs, [stop] stops
    streams K-1, K-2, ..., 0 in this order, four calls each, whatever
    the devices answer. *)
Theorem configure_then_stop (inputCfg : StreamConfiguration)
    (outputCfgs : list StreamConfiguration) (c : V4L2M2MConverter D) :
  (configure inputCfg outputCfgs c).1 = 0 ->
  calls (world (stop (configure inputCfg outputCfgs c).2))
  = calls (world (configure inputCfg outputCfgs c).2)
    ++ flat_map stop_calls (reverse (seq 0 (length outputCfgs))).
Proof.
  intros Hc. destruct (configure_indexed _ _ _ Hc) as [Hidx Hlen].
  unfold stop. simpl.
  rewrite stop_fold_calls, fmap_reverse, (indexed_seq _ Hidx), Hlen.
  reflexivity.
Qed.

End Lifecycle.

Lemma configure_success_calls_witness :
  streams_ (configure cfg_in [cfg_out0; cfg_out1] (converter0 ideal tt)).2
  = two_streams
  /\ calls (world (configure cfg_in [cfg_out0; cfg_out1] (converter0 ideal tt)).2)
     = setup_calls ideal cfg_in 0 cfg_out0 ++ setup_calls ideal cfg_in 1 cfg_out1.
Proof.
  apply (configure_success_calls (D := ideal) cfg_in [cfg_out0; cfg_out1]
           (converter0 ideal tt)).
  reflexivity.
Defined.

Lemma configure_then_start_witness :
  calls (world (start (configure cfg_in [cfg_out0; cfg_out1]
                         (converter0 ideal tt)).2).2)
  = calls (world (configure cfg_in [cfg_out0; cfg_out1] (converter0 ideal tt)).2)
    ++ [HwImportBuffers 0 Output 4; HwImportBuffers 0 Capture 4;
        HwStreamOn 0 Output; HwStreamOn 0 Capture;
        HwImportBuffers 1 Output 4; HwImportBuffers 1 Capture 2;
        HwStreamOn 1 Output; HwStreamOn 1 Capture].
Proof.
  apply (configure_then_start (D := ideal) cfg_in [cfg_out0; cfg_out1]
           (converter0 ideal tt)); reflexivity.
Defined.

Lemma configure_then_stop_witness :
  calls (world (stop (configure cfg_in [cfg_out0; cfg_out1]
                        (converter0 ideal tt)).2))
  = calls (world (configure cfg_in [cfg_out0; cfg_out1] (converter0 ideal tt)).2)
    ++ stop_calls 1 ++ stop_calls 0.
Proof.
  apply (configure_then_stop (D := ideal) cfg_in [cfg_out0; cfg_out1]
           (converter0 ideal tt)).
  reflexivity.
Defined.

(** ** Return codes and submissions *)

Section Codes.

Context {D : Device}.

Lemma Stream_queueBuffers_sign st input output (w : World D) :
  (Stream_queueBuffers st input output w).1 = 0
  \/ (Stream_queueBuffers st input output w).1 < 0.
Proof.
  unfold Stream_queueBuffers.
  destruct (hw (HwQueueBuffer _ Output _) w) as [r1 w1].
  destruct (Z.ltb_spec r1 0); [right; exact H|].
  destruct (hw (HwQueueBuffer _ Capture _) w1) as [r2 w2].
  destruct (Z.ltb_spec r2 0); [right|left]; auto.
Qed.

Lemma queue_loop_sign streams input outputs :
  forall w : World D,
  (queue_loop streams input outputs w).1 = 0
  \/ (queue_loop streams input outputs w).1 < 0.
Proof.
  induction outputs as [|[index buffer] rest IH]; intros w; simpl; [auto|].
  destruct (Stream_queueBuffers _ _ _ w) as [r w1].
  destruct (Z.ltb_spec r 0); [right; exact H|apply IH].
Qed.

(** X13.  [configure], [start] and [queueBuffers] return 0 or a
    negative code and never a positive one, also on devices whose
    calls return positive values on success. *)
Theorem return_codes_never_positive (inputCfg : StreamConfiguration)
    (outputCfgs : list StreamConfiguration) (input : FrameBuffer)
    (outputs : list (nat * FrameBuffer)) (c : V4L2M2MConverter D) :
  (configure inputCfg outputCfgs c).1 <= 0
  /\ (start c).1 <= 0
  /\ (queueBuffers input outputs c).1 <= 0.
Proof.
  split; [|split].
  - unfold configure.
    destruct (configure_loop _ _ _ _ _) as [[ret streams] w].
    destruct (Z.ltb_spec ret 0); simpl; lia.
  - unfold start. destruct (start_loop _ _) as [r c1] eqn:E. simpl.
    destruct (start_loop_spec _ _ _ _ E) as (_ & _ & _ & Hok & _).
    destruct (Z.ltb_spec r 0); [lia|]. destruct (Hok eq_refl) as [-> _]. lia.
  - unfold queueBuffers. destruct (validate _ _); simpl; [|unfold EINVAL; lia].
    pose proof (queue_loop_sign (streams_ c) input outputs (world c)) as Hs.
    destruct (queue_loop _ _ _ _) as [r w]. simpl in Hs.
    destruct (Z.ltb_spec r 0); simpl; lia.
Qed.

(** X14.  [Stream::queueBuffers] hands the input buffer to the input
    side first.  If that fails, its code is returned and the output
    buffer is never handed over.  If it succeeds the output buffer is
    handed to the output side; if that fails, its code is returned and
    the input buffer stays queued: no call is made to take it back.
    The two hand-overs are the only calls made. *)
Theorem Stream_queueBuffers_no_rollback (st : Stream)
    (input output : FrameBuffer) (w w1 w2 : World D) (r1 r2 : Z) :
  hw (HwQueueBuffer (index_ st) Output input) w = (r1, w1) ->
  hw (HwQueueBuffer (index_ st) Capture output) w1 = (r2, w2) ->
  (r1 < 0 ->
     Stream_queueBuffers st input output w = (r1, w1)
     /\ calls w1 = calls w ++ [HwQueueBuffer (index_ st) Output input])
  /\ (0 <= r1 ->
      calls (Stream_queueBuffers st input output w).2
      = calls w ++ [HwQueueBuffer (index_ st) Output input;
                    HwQueueBuffer (index_ st) Capture output]
      /\ (r2 < 0 -> Stream_queueBuffers st input output w = (r2, w2))
      /\ (0 <= r2 -> Stream_queueBuffers st input output w = (0, w2))).
Proof.
  intros E1 E2. unfold Stream_queueBuffers. rewrite E1.
  pose proof (hw_calls_eq _ _ _ _ E1) as L1.
  pose proof (hw_calls_eq _ _ _ _ E2) as L2.
  split.
  - intros H. assert ((r1 <? 0) = true) as -> by lia. auto.
  - intros H. assert ((r1 <? 0) = false) as -> by lia. rewrite E2.
    split.
    + destruct (r2 <? 0); simpl; rewrite L2, L1, <- app_assoc; reflexivity.
    + split; intros H2.
      * assert ((r2 <? 0) = true) as -> by lia. reflexivity.
      * assert ((r2 <? 0) = false) as -> by lia. reflexivity.
Qed.

(** X15.  Streams with different indices have different log prefixes. *)
Theorem Stream_logPrefix_inj (st1 st2 : Stream) :
  LogPrefix.Stream_logPrefix st1 = LogPrefix.Stream_logPrefix st2 ->
  index_ st1 = index_ st2.
Proof.
  unfold LogPrefix.Stream_logPrefix. intros H.
  apply (inj (String.append _)) in H.
  apply (inj pretty.pretty) in H. exact H.
Qed.

End Codes.

(** Stream 1 takes buffer 100 on its input side and refuses buffer 300
    on its output side. *)
Lemma Stream_queueBuffers_no_rollback_witness :
  Stream_queueBuffers (mkStream 1 true 4 2) 100%N 300%N
    (world0 second_refuses tt)
  = (- EIO,
     mkWorld (D := second_refuses) tt
       [HwQueueBuffer 1 Output 100%N; HwQueueBuffer 1 Capture 300%N]).
Proof.
  pose (w1 := mkWorld (D := second_refuses) tt [HwQueueBuffer 1 Output 100%N]).
  pose (w2 := mkWorld (D := second_refuses) tt
                [HwQueueBuffer 1 Output 100%N; HwQueueBuffer 1 Capture 300%N]).
  destruct (Stream_queueBuffers_no_rollback (D := second_refuses)
              (mkStream 1 true 4 2) 100%N 300%N (world0 second_refuses tt)
              w1 w2 0 (- EIO) eq_refl eq_refl) as (_ & H).
  destruct H as (_ & H & _); [lia|]. apply H. unfold EIO. lia.
Defined.

Lemma Stream_logPrefix_inj_witness :
  index_ (mkStream 3 true 4 4) = index_ (mkStream 3 false 0 0).
Proof.
  apply (Stream_logPrefix_inj (mkStream 3 true 4 4) (mkStream 3 false 0 0)).
  reflexivity.
Defined.

Example Stream_logPrefix_3 :
  LogPrefix.Stream_logPrefix (mkStream 3 true 4 4) = LogPrefix.stream3.
Proof. reflexivity. Qed.
